(** * SC1000 playback core: player.c and dicer.c

    A shallow embedding of the sample-synthesis engine (software/player.c)
    and of the Novation Dicer MIDI decoder (software/dicer.c), with the
    properties of the natural-language specification that concern them.

    C [double] values are IEEE 754 binary64 numbers, embedded with the
    executable specification of the Rocq core library (SpecFloat):
    every [+], [-], [*], [/] of the source is one correctly rounded
    operation.  Integers are [Z] with the wrap-around of their C type
    written out where the source can reach it. *)

From Stdlib Require Import ZArith List Bool Lia.
From Stdlib Require Import Floats.SpecFloat.
From Stdlib Require Import Zbitwise.
Import ListNotations.

Local Open Scope Z_scope.

(** ** Binary64 arithmetic *)

Module Double.

Definition prec : Z := 53.
Definition emax : Z := 1024.

Definition double : Type := spec_float.

Definition add : double -> double -> double := SFadd prec emax.
Definition sub : double -> double -> double := SFsub prec emax.
Definition mul : double -> double -> double := SFmul prec emax.
Definition div : double -> double -> double := SFdiv prec emax.
Definition fabs : double -> double := SFabs.

(** [a < b] and [a > b] of C: false as soon as one side is a NaN. *)
Definition ltb (a b : double) : bool := SFltb a b.
Definition gtb (a b : double) : bool := SFltb b a.

(** Conversion of an integer to [double], [(double) z]. *)
Definition of_Z (z : Z) : double := binary_normalize prec emax z 0 false.

Definition zero : double := S754_zero false.

(** The integer part of a finite [double] (rounding towards zero), the
    mathematical value of [(int) d] when it fits. *)
Definition trunc (d : double) : option Z :=
  match d with
  | S754_zero _ => Some 0
  | S754_finite s m e => Some (cond_Zopp s (Z.shiftl (Zpos m) e))
  | S754_infinity _ | S754_nan => None
  end.

(** A zero or a finite number: not an infinity, not a NaN. *)
Definition finite (d : double) : bool :=
  match d with
  | S754_zero _ | S754_finite _ _ _ => true
  | S754_infinity _ | S754_nan => false
  end.

(** A zero, or a finite number below [2^K] in magnitude: the number of
    binary digits of its mantissa plus its exponent is at most [K]. *)
Definition moderate (K : Z) (d : double) : Prop :=
  match d with
  | S754_zero _ => True
  | S754_finite _ m e => Zpos (digits2_pos m) + e <= K
  | S754_infinity _ | S754_nan => False
  end.

(** The exact value of a finite [double], scaled by [2^1074] so that it
    is an integer ([-1074] is the exponent of the smallest subnormal). *)
Definition scaled (d : double) : option Z :=
  match d with
  | S754_zero _ => Some 0
  | S754_finite s m e => Some (cond_Zopp s (Z.shiftl (Zpos m) (e + 1074)))
  | S754_infinity _ | S754_nan => None
  end.

End Double.

Import Double.

(** ** Integer conversions of C *)

Definition uchar_wrap (z : Z) : Z := z mod 2 ^ 8.
Definition uint_wrap (z : Z) : Z := z mod 2 ^ 32.
Definition int_wrap (z : Z) : Z := (z + 2 ^ 31) mod 2 ^ 32 - 2 ^ 31.
Definition short_wrap (z : Z) : Z := (z + 2 ^ 15) mod 2 ^ 16 - 2 ^ 15.

Definition SHRT_MAX : Z := 32767.
Definition SHRT_MIN : Z := -32768.
Definition INT_MAX : Z := 2147483647.
Definition INT_MIN : Z := -2147483648.

Definition is_short (z : Z) : Prop := SHRT_MIN <= z <= SHRT_MAX.

(** ** The Dicer controller (dicer.c) *)

Module Dicer.

Definition CUE : Z := 0.
Definition LOOP : Z := 1.
Definition ROLL : Z := 2.
Definition NOTE : Z := 3.

(** Modelled from the spec: the deck operations of deck.h that the
    controller invokes ([setCue], [unsetCue], [punchIn], [punchOut] of
    the deck contract).  The deck itself is outside dicer.c: a deck is
    observed through the sequence of operations invoked on it, oldest
    first, and through the one field the controller writes,
    [d->player.nominal_pitch]. *)
Inductive deck_op : Type :=
| deck_cue (button : Z)
| deck_unset_cue (button : Z)
| deck_punch_in (button : Z)
| deck_punch_out.

Record deck : Type := mkDeck {
  nominal_pitch : double;
  invoked : list deck_op
}.

Definition invoke (op : deck_op) (d : deck) : deck :=
  mkDeck (nominal_pitch d) (invoked d ++ [op]).

Definition set_nominal_pitch (p : double) (d : deck) : deck :=
  mkDeck p (invoked d).

(** A MIDI message, [unsigned char buf[3]]. *)
Record midi_msg : Type := mkMsg { status : Z; data1 : Z; data2 : Z }.

(** The contents of the locals [button] and [shift] of [event] before
    any assignment: whatever the stack frame holds. *)
Record indeterminate : Type := mkIndet { button0 : Z; shift0 : bool }.

(** Modelled from the spec: one call of [midi_read] (midi.h) on the
    transport, a non-blocking read of exactly one 3-byte message: a
    complete message (here with the stack contents that [event] will
    find), or an error.  An exhausted list is the transport that has no
    more data. *)
Inductive midi_read : Type :=
| read_msg (buf : midi_msg) (u : indeterminate)
| read_error.

Section WithLibm.

(** [pow] of the C mathematical library. *)
Variable pow : double -> double -> double.

(** Lines 94-131.  The two [printf] calls write to standard output
    only and are left out. *)
Definition event_decoded (d : deck) (action : Z) (shift : bool)
           (button : Z) (on : bool) : deck :=
  let d := if shift && on then invoke (deck_unset_cue button) d else d in
  if shift then d
  else
    let d := if (action =? CUE) && on
             then invoke (deck_cue button) d else d in
    let d := if action =? LOOP
             then (if on then invoke (deck_punch_in button) d
                   else invoke deck_punch_out d)
             else d in
    if action =? NOTE
    then set_nominal_pitch
           (pow (pow (of_Z 2) (div (of_Z 1) (of_Z 12)))
                (of_Z (button - 0x3C))) d
    else d.

(** The value assigned at line 128 for note [button]: the twelfth
    root of two, raised to the distance from note [0x3C]. *)
Definition note_pitch (button : Z) : double :=
  pow (pow (of_Z 2) (div (of_Z 1) (of_Z 12))) (of_Z (button - 0x3C)).

(** Lines 137-198.  [u] is what the unassigned locals hold. *)
Definition event (u : indeterminate) (d : deck) (buf : midi_msg) : deck :=
  let selected :=
    if status buf =? 0x90 then Some NOTE
    else if status buf =? 0x91 then Some CUE
    else None in
  match selected with
  | None => d
  | Some action =>
    let decoded :=
      if (action =? CUE) || (action =? LOOP) then
        if (data1 buf =? 0x24) || (data1 buf =? 0x25)
           || (data1 buf =? 0x26) || (data1 buf =? 0x27)
        then Some (uchar_wrap (data1 buf - 0x24), false)
        else if (data1 buf =? 0x28) || (data1 buf =? 0x29)
                || (data1 buf =? 0x30) || (data1 buf =? 0x31)
        then Some (uchar_wrap (data1 buf - 0x28), true)
        else None
      else if action =? NOTE then Some (data1 buf, shift0 u)
      else Some (button0 u, shift0 u) in
    match decoded with
    | None => d
    | Some (button, shift) =>
      let on := negb (data2 buf =? 0x00) in
      event_decoded d action shift button on
    end
  end.

(** Lines 212-234: drain the transport.  Returns the deck and the
    status, [0] or [-1]. *)
Fixpoint realtime (d : deck) (transport : list midi_read) : deck * Z :=
  match transport with
  | [] => (d, 0)
  | read_error :: _ => (d, -1)
  | read_msg buf u :: rest => realtime (event u d buf) rest
  end.

(** What [realtime] does with one message that was read. *)
Definition dispatch (d : deck) (m : midi_msg * indeterminate) : deck :=
  event (snd m) d (fst m).

End WithLibm.

Definition is_punch (op : deck_op) : bool :=
  match op with
  | deck_punch_in _ | deck_punch_out => true
  | deck_cue _ | deck_unset_cue _ => false
  end.

(** A sequence of deck operations without punch-in or punch-out. *)
Definition no_punch (ops : list deck_op) : Prop :=
  forallb (fun op => negb (is_punch op)) ops = true.

(** Lines 256-286 and 236-247: the resources that [dicer_init] and
    [clear] acquire and release, in the order of the calls.  A failed
    [malloc], [midi_open] or [controller_init] acquires nothing. *)
Inductive resource_event : Type :=
| did_malloc
| did_free
| did_midi_open
| did_midi_close
| did_controller_init.

(** Whether each of the three calls of [dicer_init] that can fail
    succeeds: [malloc] (stdlib.h), [midi_open] (midi.h) and
    [controller_init] (controller.h). *)
Record init_outcome : Type := mkOutcome {
  malloc_ok : bool;
  midi_open_ok : bool;
  controller_init_ok : bool
}.

(** Lines 256-286.  Returns the status and the resource events. *)
Definition dicer_init (o : init_outcome) : Z * list resource_event :=
  if negb (malloc_ok o) then (-1, [])
  else if negb (midi_open_ok o) then (-1, [did_malloc; did_free])
  else if negb (controller_init_ok o)
       then (-1, [did_malloc; did_midi_open; did_midi_close; did_free])
       else (0, [did_malloc; did_midi_open; did_controller_init]).

(** Lines 236-247. *)
Definition clear : list resource_event := [did_midi_close; did_free].

(** The blocks of memory and the MIDI handles held after a sequence of
    events, starting from [(mem, midi)]; [None] when something is
    released that is not held. *)
Fixpoint holdings (events : list resource_event) (held : nat * nat)
  : option (nat * nat) :=
  match events with
  | [] => Some held
  | e :: rest =>
    let '(mem, midi) := held in
    match e with
    | did_malloc => holdings rest (S mem, midi)
    | did_midi_open => holdings rest (mem, S midi)
    | did_controller_init => holdings rest (mem, midi)
    | did_free =>
      match mem with
      | O => None
      | S mem' => holdings rest (mem', midi)
      end
    | did_midi_close =>
      match midi with
      | O => None
      | S midi' => holdings rest (mem, midi')
      end
    end
  end.

(** The MIDI handle is a field of the block that [malloc] returned
    ([d->midi]).  A sequence of events keeps the handle within its
    block when nothing is released that is not held and, after each
    event, no more handles are open than blocks are held: the block is
    not freed while its handle is open. *)
Fixpoint handle_within_block (events : list resource_event)
         (held : nat * nat) : bool :=
  match events with
  | [] => true
  | e :: rest =>
    match holdings [e] held with
    | Some (mem, midi) =>
      (midi <=? mem)%nat && handle_within_block rest (mem, midi)
    | None => false
    end
  end.

(** The messages of a transport read sequence up to its first error. *)
Fixpoint before_error (transport : list midi_read)
  : list (midi_msg * indeterminate) :=
  match transport with
  | [] => []
  | read_error :: _ => []
  | read_msg buf u :: rest => (buf, u) :: before_error rest
  end.

Definition has_error (transport : list midi_read) : bool :=
  existsb (fun r => match r with read_error => true | _ => false end)
          transport.

End Dicer.

(** ** The player (player.c) *)

Module Player.

(** Modelled from the spec: [struct track] of track.h, as far as the
    player reads it: the length in samples, the native sample rate, and
    the 16-bit PCM value of each channel at each sample index
    ([track_get_sample]). *)
Record track : Type := mkTrack {
  length : Z;
  rate : Z;
  track_get_sample : Z -> nat -> Z
}.

Definition set_rate (r : Z) (t : track) : track :=
  mkTrack (length t) r (track_get_sample t).

Definition SYNC_TIME : double := div (of_Z 1) (of_Z 2).
(** The literal [0.05]: the binary64 number nearest to 5/100. *)
Definition SYNC_PITCH : double := div (of_Z 5) (of_Z 100).
Definition SKIP_THRESHOLD : double := div (of_Z 1) (of_Z 8).
Definition TARGET_UNKNOWN : double := S754_infinity false.
(** The literal [0.5]. *)
Definition half : double := div (of_Z 1) (of_Z 2).

(** Four consecutive samples of one channel, [signed short y[4]]. *)
Definition taps : Type := (Z * Z * Z * Z)%type.

(** Lines 63-75.  [a0..a3] are [signed long]; with 16-bit samples no
    operation on them overflows. *)
Definition cubic_interpolate (y : taps) (mu : double) : double :=
  let '(y0, y1, y2, y3) := y in
  let mu2 := mul mu mu in
  let a0 := y3 - y2 - y0 + y1 in
  let a1 := y0 - y1 - a0 in
  let a2 := y2 - y0 in
  let a3 := y1 in
  add (add (add (mul (mul mu mu2) (of_Z a0)) (mul mu2 (of_Z a1)))
           (mul mu (of_Z a2)))
      (of_Z a3).

(** Lines 81-98.  The static [unsigned int x] is passed in and
    returned. *)
Definition dither (x : Z) : Z * double :=
  let bit :=
    Z.land (Z.lxor (Z.lxor (Z.lxor x (Z.shiftr x 1)) (Z.shiftr x 21))
                   (Z.shiftr x 31)) 1 in
  let x := Z.lor (uint_wrap (Z.shiftl x 1)) bit in
  let v :=
    Z.lor (Z.lor (Z.land x 0x0000000f)
                 (Z.shiftr (Z.land x 0x000f0000) 12))
          (Z.shiftr (Z.land x 0x0f000000) 16) in
  (x, sub (div (of_Z v) (of_Z 4096)) half).

Definition dither_seed : Z := 0xbeefface.

(** [*sp = v] at [sp = pcm + n]; the caller provides the room. *)
Fixpoint store (pcm : list Z) (n : nat) (v : Z) : list Z :=
  match pcm, n with
  | [], _ => []
  | _ :: rest, O => v :: rest
  | w :: rest, S n' => w :: store rest n' v
  end.

(** Lines 376-382. *)
Definition NearlyEqual (val1 val2 tolerance : double) : bool :=
  ltb (fabs (sub val1 val2)) tolerance.

(** [memset (pcm, 0, n * sizeof *pcm)]: the first [n] values become
    zero. *)
Fixpoint zero_fill (pcm : list Z) (n : nat) : list Z :=
  match pcm, n with
  | _ :: rest, S n' => 0 :: zero_fill rest n'
  | _, _ => pcm
  end.

(** One step of the shift register of [dither], and the 12 bits drawn
    from the register (lines 88-95). *)
Definition lfsr_step (x : Z) : Z := fst (dither x).
Definition drawn_bits (x : Z) : Z :=
  Z.lor (Z.lor (Z.land x 0x0000000f)
               (Z.shiftr (Z.land x 0x000f0000) 12))
        (Z.shiftr (Z.land x 0x0f000000) 16).

(** Line 97: the value returned for the 12 bits [v]. *)
Definition noise_of (v : Z) : double :=
  sub (div (of_Z v) (of_Z 4096)) half.

(** [-0.5 <= d < 0.5], and [d] has integer part 0. *)
Definition within_half (d : double) : bool :=
  SFleb (SFopp half) d && SFltb d half
  && match trunc d with Some 0 => true | _ => false end.

(** With the 12 bits [v] drawn, a channel whose interpolation is a
    zero of either sign stores 0: the value [0.5 * 0 + noise] is
    within the 16-bit range and its integer part is 0. *)
Definition silent_draw (v : Z) : bool :=
  forallb (fun s =>
             let r := add (mul half (S754_zero s)) (noise_of v) in
             negb (gtb r (of_Z SHRT_MAX)) && negb (ltb r (of_Z SHRT_MIN))
             && match trunc r with Some 0 => true | _ => false end)
          [true; false].

(** The buffer [after] is [before] with zeros written into some
    slots, among them every slot [2 * s + c] of the samples
    [lo <= s < hi] and channels [c < channels]. *)
Definition zeroed (channels lo hi : nat) (before after : list Z) : Prop :=
  List.length after = List.length before
  /\ (forall i d, nth i after d = nth i before d \/ nth i after d = 0)
  /\ (forall s c d, (lo <= s < hi)%nat -> (c < channels)%nat ->
                    (2 * s + c < List.length before)%nat ->
                    nth (2 * s + c) after d = 0).

(** What a buffer and a dither register have in common before and
    after rendering has written the slots from [lo] up to [hi]
    (excluded), with [k] draws of the dither. *)
Definition written (lo hi k : nat) (before after : list Z * Z) : Prop :=
  List.length (fst after) = List.length (fst before)
  /\ (forall i d, (i < lo \/ hi <= i)%nat ->
                  nth i (fst after) d = nth i (fst before) d)
  /\ (Forall is_short (fst before) -> Forall is_short (fst after))
  /\ snd after = Nat.iter k lfsr_step (snd before).

Section Render.

(** The result of converting to an integer type a [double] that is a
    NaN or whose integer part does not fit: undefined in C, fixed by
    the processor in practice. *)
Variable cast_undefined : double -> Z.

Definition cast_int (d : double) : Z :=
  match trunc d with
  | Some z => if (INT_MIN <=? z) && (z <=? INT_MAX) then z
              else int_wrap (cast_undefined d)
  | None => int_wrap (cast_undefined d)
  end.

Definition cast_short (d : double) : Z :=
  match trunc d with
  | Some z => if (SHRT_MIN <=? z) && (z <=? SHRT_MAX) then z
              else short_wrap (cast_undefined d)
  | None => short_wrap (cast_undefined d)
  end.

(** The input queue of sc_queue.h.  [InterpolateQueue q &timestamp
    &target] receives the queue and the player's timestamp by
    reference; it answers false ([None]) or true with a target
    position. *)
Variable queue : Type.
Variable InterpolateQueue :
  queue -> double -> queue * double * option double.

(** The channel count of player.h. *)
Variable PLAYER_CHANNELS : nat.

(** The wrap-around of the integer type of the field [samplesSoFar],
    declared in player.h. *)
Variable counter_wrap : Z -> Z.

(** Modelled from the spec: [struct player] of player.h, with the
    fields that player.c reads or writes in the functions below.
    [lock] is true while the spinlock is held. *)
Record player : Type := mkPlayer {
  lock : bool;
  sample_dt : double;
  pl_track : track;
  position : double;
  target_position : double;
  offset : double;
  last_difference : double;
  pitch : double;
  sync_pitch : double;
  volume : double;
  nominal_pitch : double;
  timestamp : double;
  last_position : double;
  samplesSoFar : Z;
  recalibrate : bool;
  timecode_control : bool;
  scqueue : queue
}.

Definition set_lock v pl :=
  mkPlayer v (sample_dt pl) (pl_track pl) (position pl)
    (target_position pl) (offset pl) (last_difference pl) (pitch pl)
    (sync_pitch pl) (volume pl) (nominal_pitch pl) (timestamp pl)
    (last_position pl) (samplesSoFar pl) (recalibrate pl)
    (timecode_control pl) (scqueue pl).
Definition set_track v pl :=
  mkPlayer (lock pl) (sample_dt pl) v (position pl)
    (target_position pl) (offset pl) (last_difference pl) (pitch pl)
    (sync_pitch pl) (volume pl) (nominal_pitch pl) (timestamp pl)
    (last_position pl) (samplesSoFar pl) (recalibrate pl)
    (timecode_control pl) (scqueue pl).
Definition set_position v pl :=
  mkPlayer (lock pl) (sample_dt pl) (pl_track pl) v
    (target_position pl) (offset pl) (last_difference pl) (pitch pl)
    (sync_pitch pl) (volume pl) (nominal_pitch pl) (timestamp pl)
    (last_position pl) (samplesSoFar pl) (recalibrate pl)
    (timecode_control pl) (scqueue pl).
Definition set_offset v pl :=
  mkPlayer (lock pl) (sample_dt pl) (pl_track pl) (position pl)
    (target_position pl) v (last_difference pl) (pitch pl)
    (sync_pitch pl) (volume pl) (nominal_pitch pl) (timestamp pl)
    (last_position pl) (samplesSoFar pl) (recalibrate pl)
    (timecode_control pl) (scqueue pl).
Definition set_last_difference v pl :=
  mkPlayer (lock pl) (sample_dt pl) (pl_track pl) (position pl)
    (target_position pl) (offset pl) v (pitch pl)
    (sync_pitch pl) (volume pl) (nominal_pitch pl) (timestamp pl)
    (last_position pl) (samplesSoFar pl) (recalibrate pl)
    (timecode_control pl) (scqueue pl).
Definition set_pitch v pl :=
  mkPlayer (lock pl) (sample_dt pl) (pl_track pl) (position pl)
    (target_position pl) (offset pl) (last_difference pl) v
    (sync_pitch pl) (volume pl) (nominal_pitch pl) (timestamp pl)
    (last_position pl) (samplesSoFar pl) (recalibrate pl)
    (timecode_control pl) (scqueue pl).
Definition set_sync_pitch v pl :=
  mkPlayer (lock pl) (sample_dt pl) (pl_track pl) (position pl)
    (target_position pl) (offset pl) (last_difference pl) (pitch pl)
    v (volume pl) (nominal_pitch pl) (timestamp pl)
    (last_position pl) (samplesSoFar pl) (recalibrate pl)
    (timecode_control pl) (scqueue pl).
Definition set_timestamp v pl :=
  mkPlayer (lock pl) (sample_dt pl) (pl_track pl) (position pl)
    (target_position pl) (offset pl) (last_difference pl) (pitch pl)
    (sync_pitch pl) (volume pl) (nominal_pitch pl) v
    (last_position pl) (samplesSoFar pl) (recalibrate pl)
    (timecode_control pl) (scqueue pl).
Definition set_last_position v pl :=
  mkPlayer (lock pl) (sample_dt pl) (pl_track pl) (position pl)
    (target_position pl) (offset pl) (last_difference pl) (pitch pl)
    (sync_pitch pl) (volume pl) (nominal_pitch pl) (timestamp pl)
    v (samplesSoFar pl) (recalibrate pl)
    (timecode_control pl) (scqueue pl).
Definition set_samplesSoFar v pl :=
  mkPlayer (lock pl) (sample_dt pl) (pl_track pl) (position pl)
    (target_position pl) (offset pl) (last_difference pl) (pitch pl)
    (sync_pitch pl) (volume pl) (nominal_pitch pl) (timestamp pl)
    (last_position pl) v (recalibrate pl)
    (timecode_control pl) (scqueue pl).
Definition set_recalibrate v pl :=
  mkPlayer (lock pl) (sample_dt pl) (pl_track pl) (position pl)
    (target_position pl) (offset pl) (last_difference pl) (pitch pl)
    (sync_pitch pl) (volume pl) (nominal_pitch pl) (timestamp pl)
    (last_position pl) (samplesSoFar pl) v
    (timecode_control pl) (scqueue pl).
Definition set_scqueue v pl :=
  mkPlayer (lock pl) (sample_dt pl) (pl_track pl) (position pl)
    (target_position pl) (offset pl) (last_difference pl) (pitch pl)
    (sync_pitch pl) (volume pl) (nominal_pitch pl) (timestamp pl)
    (last_position pl) (samplesSoFar pl) (recalibrate pl)
    (timecode_control pl) v.

(** Lines 314-319.  [None] is the failed assertion. *)
Definition calibrate_to_timecode_position (pl : player) : option player :=
  if SFeqb (target_position pl) TARGET_UNKNOWN then None
  else
    let pl :=
      set_offset (add (offset pl)
                      (sub (target_position pl) (position pl))) pl in
    Some (set_position (target_position pl) pl).

(** Lines 321-353.  The message on standard error is left out. *)
Definition retarget (pl : player) : option player :=
  let calibrated :=
    if recalibrate pl then
      match calibrate_to_timecode_position pl with
      | Some pl => Some (set_recalibrate false pl)
      | None => None
      end
    else Some pl in
  match calibrated with
  | None => None
  | Some pl =>
    let diff := sub (position pl) (target_position pl) in
    let pl := set_last_difference diff pl in
    if gtb (fabs diff) SKIP_THRESHOLD then
      Some (set_position (target_position pl) pl)
    else if gtb (fabs (pitch pl)) SYNC_PITCH then
      Some (set_sync_pitch
              (div (pitch pl) (add (div diff SYNC_TIME) (pitch pl))) pl)
    else Some pl
  end.

(** Lines 403-440 of [build_pcm]: the position update that opens the
    rendering of each output sample. *)
Definition advance (pl : player) : player :=
  let '(q, ts, entry) := InterpolateQueue (scqueue pl) (timestamp pl) in
  let pl := set_timestamp ts (set_scqueue q pl) in
  let pl :=
    match entry with
    | Some target =>
      let pl := set_position target pl in
      let pl := set_pitch (sub (position pl) (last_position pl)) pl in
      let pl := set_last_position (position pl) pl in
      set_timestamp (add (timestamp pl) (sample_dt pl)) pl
    | None => set_position (add (position pl) (pitch pl)) pl
    end in
  set_samplesSoFar (counter_wrap (samplesSoFar pl + 1)) pl.

(** Line 442: the coordinate, in samples of the track, of the
    playback position. *)
Definition sample_coordinate (pl : player) : double :=
  mul (position pl) (of_Z 48000).

(** Lines 444-448: the index of the first of the four samples read,
    and the fraction [f]. *)
Definition locate (sample : double) : Z * double :=
  let sa := cast_int sample in
  let sa := if ltb sample zero then int_wrap (sa - 1) else sa in
  let f := sub sample (of_Z sa) in
  (int_wrap (sa - 1), f).

(** Lines 452-465: one sample of the window; silence outside the
    track. *)
Definition tap (t : track) (sa : Z) (c : nat) : Z :=
  if (sa <? 0) || (length t <=? sa) then 0 else track_get_sample t sa c.

(** Lines 450-466: [i[c]] for the window that starts at [sa]. *)
Definition window (t : track) (sa : Z) (c : nat) : taps :=
  (tap t sa c, tap t (int_wrap (sa + 1)) c,
   tap t (int_wrap (sa + 2)) c, tap t (int_wrap (sa + 3)) c).

(** Lines 477-488. *)
Definition clamp (v : double) : Z :=
  if gtb v (of_Z SHRT_MAX) then SHRT_MAX
  else if ltb v (of_Z SHRT_MIN) then SHRT_MIN
  else cast_short v.

(** Lines 468-489, one channel [c] of output sample [s].  The state
    is the output buffer and the dither register. *)
Definition render_channel (t : track) (sa : Z) (f : double) (s : nat)
           (out : list Z * Z) (c : nat) : list Z * Z :=
  let '(pcm, x) := out in
  let vol := half in
  let '(x, noise) := dither x in
  let v := add (mul vol (cubic_interpolate (window t sa c) f)) noise in
  (store pcm (2 * s + c) (clamp v), x).

(** Lines 442-489 for one slot: the value stored for channel [c] of
    an output sample rendered from the player [pl] (as its position
    update left it), when the draw of the dither for that channel
    leaves [x] in the register. *)
Definition rendered_value (pl : player) (x : Z) (c : nat) : Z :=
  let '(sa, f) := locate (sample_coordinate pl) in
  clamp (add (mul half (cubic_interpolate (window (pl_track pl) sa c) f))
             (noise_of (drawn_bits x))).

(** The body of the loop of [build_pcm] for output sample [s]. *)
Definition render_sample (s : nat) (st : player * (list Z * Z))
  : player * (list Z * Z) :=
  let '(pl, out) := st in
  let pl := advance pl in
  let '(sa, f) := locate (sample_coordinate pl) in
  (pl, fold_left (render_channel (pl_track pl) sa f s)
                 (seq 0 PLAYER_CHANNELS) out).

Fixpoint build_pcm_from (s samples : nat) (st : player * (list Z * Z))
  : player * (list Z * Z) :=
  match samples with
  | O => st
  | S n => build_pcm_from (S s) n (render_sample s st)
  end.

(** Lines 386-495.  The parameter [looping] is not used; no value is
    returned. *)
Definition build_pcm (pl : player) (out : list Z * Z) (samples : nat)
  : player * (list Z * Z) :=
  build_pcm_from 0 samples (pl, out).

(** Modelled from the spec: [spin_try_lock] and [spin_unlock] of the
    spinlock header, which is not part of this file: a non-blocking
    attempt that succeeds exactly when the lock is free, and then
    holds it. *)
Definition spin_try_lock (pl : player) : bool * player :=
  if lock pl then (false, pl) else (true, set_lock true pl).
Definition spin_unlock (pl : player) : player := set_lock false pl.

(** Lines 505-517. *)
Definition player_collect (pl : player) (out : list Z * Z)
           (totalSamples : nat) : player * (list Z * Z) :=
  let '(acquired, pl) := spin_try_lock pl in
  if negb acquired then (pl, out)
  else
    let '(pl, out) := build_pcm pl out totalSamples in
    (spin_unlock pl, out).

(** The queue answers false at each of its next [n] calls, starting
    from queue [q] and timestamp [ts]. *)
Fixpoint queue_silent (n : nat) (q : queue) (ts : double) : Prop :=
  match n with
  | O => True
  | S n' =>
    let '(q', ts', entry) := InterpolateQueue q ts in
    entry = None /\ queue_silent n' q' ts'
  end.

(** The same player bound to a track of native rate [r] with the
    same samples. *)
Definition with_rate (r : Z) (pl : player) : player :=
  set_track (set_rate r (pl_track pl)) pl.

(** The coordinate that the specification describes: the position
    multiplied by the native rate of the bound track. *)
Definition native_coordinate (pl : player) : double :=
  mul (position pl) (of_Z (rate (pl_track pl))).

(** The positions from which the next [n] output samples are
    rendered: the position after each update. *)
Fixpoint positions_visited (n : nat) (pl : player) : list double :=
  match n with
  | O => []
  | S n' => position (advance pl) :: positions_visited n' (advance pl)
  end.

(** The window of position [p] lies wholly outside track [t]: its four
    samples are silence on every channel. *)
Definition outside (t : track) (p : double) : Prop :=
  forall c, window t (fst (locate (mul p (of_Z 48000)))) c = (0, 0, 0, 0).

Definition set_timecode_control_flag v pl :=
  mkPlayer (lock pl) (sample_dt pl) (pl_track pl) (position pl)
    (target_position pl) (offset pl) (last_difference pl) (pitch pl)
    (sync_pitch pl) (volume pl) (nominal_pitch pl) (timestamp pl)
    (last_position pl) (samplesSoFar pl) (recalibrate pl)
    v (scqueue pl).

(** Lines 108-113. *)
Definition build_silence (pcm : list Z) (samples : nat)
           (sample_dt pitch : double) : list Z * double :=
  (zero_fill pcm (PLAYER_CHANNELS * samples),
   mul (mul sample_dt pitch) (of_Z (Z.of_nat samples))).

(** Lines 201-206. *)
Definition player_set_timecode_control (pl : player) (on : bool) : player :=
  let pl := if on && negb (timecode_control pl)
            then set_recalibrate true pl else pl in
  set_timecode_control_flag on pl.

(** Lines 214-220.  Returns the player and the new state of timecode
    control. *)
Definition player_toggle_timecode_control (pl : player) : player * bool :=
  let pl := set_timecode_control_flag (negb (timecode_control pl)) pl in
  let pl := if timecode_control pl then set_recalibrate true pl else pl in
  (pl, timecode_control pl).

(** Lines 222-226. *)
Definition player_set_internal_playback (pl : player) : player :=
  set_pitch (of_Z 1) (set_timecode_control_flag false pl).

(** Lines 228-231. *)
Definition player_get_position (pl : player) : double := position pl.

(** Lines 233-236. *)
Definition player_get_elapsed (pl : player) : double :=
  sub (position pl) (offset pl).

(** Lines 238-241. *)
Definition player_get_remain (pl : player) : double :=
  sub (add (div (of_Z (length (pl_track pl))) (of_Z (rate (pl_track pl))))
           (offset pl))
      (position pl).

(** Lines 243-246.  The literal [0.01] is the binary64 number nearest
    to 1/100. *)
Definition player_is_active (pl : player) : bool :=
  gtb (fabs (pitch pl)) (div (of_Z 1) (of_Z 100)).

(** Lines 252-255. *)
Definition player_recue (pl : player) : player :=
  set_offset (position pl) pl.

(** Lines 359-362. *)
Definition player_seek_to (pl : player) (seconds : double) : player :=
  set_offset (sub (position pl) seconds) pl.

(** The queue answers true at each of its next calls, with the target
    positions [targets] in turn; [build_pcm] adds [dt] to the timestamp
    after each. *)
Fixpoint queue_feeds (targets : list double) (q : queue) (ts dt : double)
  : Prop :=
  match targets with
  | [] => True
  | target :: rest =>
    let '(q', ts', entry) := InterpolateQueue q ts in
    entry = Some target /\ queue_feeds rest q' (add ts' dt) dt
  end.

End Render.

Arguments mkPlayer {queue}.
Arguments lock {queue}.
Arguments sample_dt {queue}.
Arguments pl_track {queue}.
Arguments position {queue}.
Arguments target_position {queue}.
Arguments offset {queue}.
Arguments last_difference {queue}.
Arguments pitch {queue}.
Arguments sync_pitch {queue}.
Arguments volume {queue}.
Arguments nominal_pitch {queue}.
Arguments timestamp {queue}.
Arguments last_position {queue}.
Arguments samplesSoFar {queue}.
Arguments recalibrate {queue}.
Arguments timecode_control {queue}.
Arguments scqueue {queue}.
Arguments set_lock {queue}.
Arguments set_track {queue}.
Arguments set_position {queue}.
Arguments set_offset {queue}.
Arguments set_last_difference {queue}.
Arguments set_pitch {queue}.
Arguments set_sync_pitch {queue}.
Arguments set_timestamp {queue}.
Arguments set_last_position {queue}.
Arguments set_samplesSoFar {queue}.
Arguments set_recalibrate {queue}.
Arguments set_scqueue {queue}.
Arguments calibrate_to_timecode_position {queue}.
Arguments retarget {queue}.
Arguments advance {queue}.
Arguments sample_coordinate {queue}.
Arguments rendered_value cast_undefined {queue}.
Arguments render_sample cast_undefined {queue}.
Arguments build_pcm_from cast_undefined {queue}.
Arguments build_pcm cast_undefined {queue}.
Arguments spin_try_lock {queue}.
Arguments spin_unlock {queue}.
Arguments player_collect cast_undefined {queue}.
Arguments queue_silent {queue}.
Arguments with_rate {queue}.
Arguments native_coordinate {queue}.
Arguments positions_visited {queue}.
Arguments set_timecode_control_flag {queue}.
Arguments player_set_timecode_control {queue}.
Arguments player_toggle_timecode_control {queue}.
Arguments player_set_internal_playback {queue}.
Arguments player_get_position {queue}.
Arguments player_get_elapsed {queue}.
Arguments player_get_remain {queue}.
Arguments player_is_active {queue}.
Arguments player_recue {queue}.
Arguments player_seek_to {queue}.
Arguments queue_feeds {queue}.

End Player.

(** ** Concrete inputs *)

Module Fixtures.

Import Dicer Player.

(** A stand-in for [pow], right for the exponents 0 and 1: the
    concrete runs below do not reach another one. *)
Definition pow_stub (x y : double) : double :=
  match y with
  | S754_zero _ => of_Z 1
  | S754_nan => S754_nan
  | _ => x
  end.

Definition fresh_deck : deck := mkDeck (of_Z 1) [].

Definition garbage_shifted : indeterminate := mkIndet 0 true.

(** A queue held as the list of the target positions still to come. *)
Definition list_queue : Type := list double.
Definition pop_queue (q : list_queue) (ts : double)
  : list_queue * double * option double :=
  match q with
  | [] => ([], ts, None)
  | target :: rest => (rest, ts, Some target)
  end.

(** Conversions out of range saturate, as on the ARM processor of the
    SC1000. *)
Definition cast_saturating (d : double) : Z :=
  match d with
  | S754_nan | S754_zero _ => 0
  | S754_infinity true | S754_finite true _ _ => INT_MIN
  | S754_infinity false | S754_finite false _ _ => INT_MAX
  end.

(** Two seconds of a 44.1 kHz track whose sample [i] holds
    [i mod 2^15] on every channel. *)
Definition ramp_track : track :=
  mkTrack 88200 44100 (fun i _ => i mod 2 ^ 15).

Definition tenth : double := div (of_Z 1) (of_Z 10).

Definition idle_player (pos ptch : double) (locked : bool)
  : player list_queue :=
  mkPlayer locked (div (of_Z 1) (of_Z 48000)) ramp_track
    pos zero zero zero ptch (of_Z 1) zero (of_Z 1) zero zero 0
    false false [].

(** Forward play at normal speed, 1/48000 second of track per output
    sample, from the start of the track, with nothing queued. *)
Definition normal_play : player list_queue :=
  idle_player zero (div (of_Z 1) (of_Z 48000)) false.

(** A player at rest whose queue holds three target positions. *)
Definition fed_player : player list_queue :=
  mkPlayer false (div (of_Z 1) (of_Z 48000)) ramp_track
    zero zero zero zero zero (of_Z 1) zero (of_Z 1) zero zero 0
    false false [of_Z 3; of_Z 5; of_Z 6].

(** A player whose target position is not known yet. *)
Definition unknown_target_player : player list_queue :=
  mkPlayer false (div (of_Z 1) (of_Z 48000)) ramp_track
    zero TARGET_UNKNOWN zero zero zero (of_Z 1) zero (of_Z 1) zero zero 0
    false false [].

(** A deck parked three seconds into the two-second [ramp_track]. *)
Definition parked_player : player list_queue :=
  idle_player (of_Z 3) zero false.

(** A deck at rest 1.9 seconds into the two-second [ramp_track]. *)
Definition late_player : player list_queue :=
  idle_player (div (of_Z 19) (of_Z 10)) zero false.

(** A zeroed output buffer of [n] values and the dither register as
    the program starts with it. *)
Definition silence (n : nat) : list Z * Z := (repeat 0 n, dither_seed).

End Fixtures.

(** ** Properties of the binary64 operations used below *)

Module DoubleFacts.

Lemma digits2_pos_iter_xO k p :
  digits2_pos (Pos.iter xO p k) = (digits2_pos p + k)%positive.
Proof.
  induction k using Pos.peano_ind.
  - simpl. lia.
  - rewrite Pos.iter_succ. simpl. rewrite IHk. lia.
Qed.

Lemma digits2_pos_size p : digits2_pos p = Pos.size p.
Proof. induction p; simpl; congruence. Qed.

Lemma digits2_pos_below p : Zpos p < 2 ^ 53 -> Zpos (digits2_pos p) <= 53.
Proof.
  intros Hp. rewrite digits2_pos_size.
  destruct (Z.le_gt_cases (Zpos (Pos.size p)) 53) as [Hle|Hgt]; [exact Hle|].
  exfalso.
  pose proof (Pos.size_le p) as Hs.
  assert (H54 : 2 ^ 54 <= Zpos (2 ^ Pos.size p)).
  { rewrite Pos2Z.inj_pow. apply Z.pow_le_mono_r; lia. }
  assert (Hd : Zpos (2 ^ Pos.size p) <= Zpos p~0)
    by (apply Pos2Z.pos_le_pos; exact Hs).
  change (2 ^ 54) with (2 * 2 ^ 53) in H54. lia.
Qed.

(** Rounding a mantissa that already is in canonical form returns it. *)
Lemma binary_round_aux_canonical s m e :
  bounded prec emax m e = true ->
  binary_round_aux prec emax s (Zpos m) e loc_Exact = S754_finite s m e.
Proof.
  unfold bounded, canonical_mantissa. intros H.
  apply andb_prop in H. destruct H as [Hc Hb].
  apply Z.eqb_eq in Hc.
  unfold binary_round_aux, shr_fexp. cbn [Zdigits2 shr_record_of_loc].
  rewrite Hc, Z.sub_diag.
  cbn [shr shr_m loc_of_shr_record round_nearest_even Zdigits2
       shr_record_of_loc].
  rewrite Hc, Z.sub_diag. cbn [shr shr_m]. rewrite Hb. reflexivity.
Qed.

Lemma binary_round_below s p :
  Zpos p < 2 ^ 53 ->
  exists m e, binary_round prec emax s p 0 = S754_finite s m e.
Proof.
  intros Hp. apply digits2_pos_below in Hp.
  unfold binary_round, shl_align, fexp, emin.
  rewrite Z.add_0_r, Z.sub_0_r.
  set (d := digits2_pos p) in *.
  replace (Z.max (Zpos d - prec) (3 - emax - prec)) with (Zpos d - prec)
    by (unfold prec, emax; lia).
  destruct (Zpos d - prec) as [|k|k] eqn:Hk.
  - exists p, 0. apply binary_round_aux_canonical.
    unfold bounded, canonical_mantissa, fexp, emin. fold d.
    unfold prec, emax in *.
    apply andb_true_intro; split; [apply Z.eqb_eq|apply Z.leb_le]; lia.
  - unfold prec in Hk; lia.
  - exists (Pos.iter xO p k), (Zneg k). apply binary_round_aux_canonical.
    unfold bounded, canonical_mantissa, fexp, emin.
    rewrite digits2_pos_iter_xO. fold d.
    unfold prec, emax in *.
    apply andb_true_intro; split; [apply Z.eqb_eq|apply Z.leb_le]; lia.
Qed.

(** An integer below [2^53] in magnitude converts to [+0] or to a
    finite number of its sign: never to [-0], an infinity or a NaN. *)
Lemma of_Z_shape z :
  Z.abs z < 2 ^ 53 ->
  of_Z z = S754_zero false \/
  exists m e, of_Z z = S754_finite (z <? 0) m e.
Proof.
  intros Hz. destruct z as [|p|p]; [left; reflexivity| |]; right;
    apply binary_round_below; exact Hz.
Qed.

Lemma mul_zero_of_Z s z :
  Z.abs z < 2 ^ 53 -> exists s', mul (S754_zero s) (of_Z z) = S754_zero s'.
Proof.
  intros Hz. destruct (of_Z_shape z Hz) as [E|(m & e & E)]; rewrite E;
    simpl; eauto.
Qed.

Lemma add_zero_of_Z s z :
  Z.abs z < 2 ^ 53 -> add (S754_zero s) (of_Z z) = of_Z z.
Proof.
  intros Hz. destruct (of_Z_shape z Hz) as [E|(m & e & E)]; rewrite E;
    destruct s; reflexivity.
Qed.

Lemma add_zero_zero s1 s2 :
  exists s', add (S754_zero s1) (S754_zero s2) = S754_zero s'.
Proof. destruct s1, s2; simpl; eauto. Qed.

Lemma int_wrap_id z : INT_MIN <= z <= INT_MAX -> int_wrap z = z.
Proof.
  unfold INT_MIN, INT_MAX, int_wrap. intros Hz.
  rewrite Z.mod_small; lia.
Qed.

End DoubleFacts.

(** ** The Dicer decoder and its dispatch *)

Module DicerFacts.

Import Dicer Fixtures.

Section Decoder.

Variable pow : double -> double -> double.

Lemma event_decoded_shift d action button on :
  event_decoded pow d action true button on =
  if on then invoke (deck_unset_cue button) d else d.
Proof. destruct on; reflexivity. Qed.

Lemma event_decoded_note d button on :
  event_decoded pow d NOTE false button on =
  set_nominal_pitch (note_pitch pow button) d.
Proof. destruct on; reflexivity. Qed.

Lemma event_decoded_cue d button on :
  event_decoded pow d CUE false button on =
  if on then invoke (deck_cue button) d else d.
Proof. destruct on; reflexivity. Qed.

(** What [event] hands to [event_decoded] for a note message. *)
Lemma event_note u d b1 b2 :
  event pow u d (mkMsg 0x90 b1 b2) =
  event_decoded pow d NOTE (shift0 u) b1 (negb (b2 =? 0)).
Proof. reflexivity. Qed.

(** What [event] does with a cue message, by the value of [data1]. *)
Lemma event_cue u d b1 b2 :
  event pow u d (mkMsg 0x91 b1 b2) =
  if (b1 =? 0x24) || (b1 =? 0x25) || (b1 =? 0x26) || (b1 =? 0x27)
  then event_decoded pow d CUE false (uchar_wrap (b1 - 0x24))
                     (negb (b2 =? 0))
  else if (b1 =? 0x28) || (b1 =? 0x29) || (b1 =? 0x30) || (b1 =? 0x31)
  then event_decoded pow d CUE true (uchar_wrap (b1 - 0x28))
                     (negb (b2 =? 0))
  else d.
Proof.
  unfold event. cbn [status data1 data2].
  change (0x91 =? 0x90) with false. change (0x91 =? 0x91) with true.
  cbv iota. change ((CUE =? CUE) || (CUE =? LOOP)) with true. cbv iota.
  destruct ((b1 =? 0x24) || (b1 =? 0x25) || (b1 =? 0x26) || (b1 =? 0x27));
    [reflexivity|].
  destruct ((b1 =? 0x28) || (b1 =? 0x29) || (b1 =? 0x30) || (b1 =? 0x31));
    reflexivity.
Qed.

(** Every effect of [event] on the deck is one of: nothing, a cue or
    note dispatch.  The action is never [LOOP]. *)
Lemma event_action u d buf :
  event pow u d buf = d \/
  exists action shift button on,
    (action = CUE \/ action = NOTE) /\
    event pow u d buf = event_decoded pow d action shift button on.
Proof.
  unfold event.
  destruct (status buf =? 0x90).
  - right. exists NOTE, (shift0 u), (data1 buf), (negb (data2 buf =? 0)).
    split; [right|]; reflexivity.
  - destruct (status buf =? 0x91); [|left; reflexivity].
    change ((CUE =? CUE) || (CUE =? LOOP)) with true. cbv iota.
    destruct ((data1 buf =? 0x24) || (data1 buf =? 0x25)
              || (data1 buf =? 0x26) || (data1 buf =? 0x27)).
    + right. eexists CUE, _, _, _. split; [left|]; reflexivity.
    + destruct ((data1 buf =? 0x28) || (data1 buf =? 0x29)
                || (data1 buf =? 0x30) || (data1 buf =? 0x31)).
      * right. eexists CUE, _, _, _. split; [left|]; reflexivity.
      * left. reflexivity.
Qed.

(** A dispatch whose action is not [LOOP] appends no punch
    operation. *)
Lemma event_decoded_no_punch d action shift button on :
  action <> LOOP ->
  exists ops,
    invoked (event_decoded pow d action shift button on)
    = invoked d ++ ops /\ no_punch ops.
Proof.
  intros Ha. unfold event_decoded.
  destruct (action =? LOOP) eqn:E; [apply Z.eqb_eq in E; contradiction|].
  destruct shift, on, (action =? CUE), (action =? NOTE); cbn;
    first [ exists []; rewrite app_nil_r; split; reflexivity
          | eexists [_]; split; reflexivity ].
Qed.

Lemma event_no_punch u d buf :
  exists ops, invoked (event pow u d buf) = invoked d ++ ops /\ no_punch ops.
Proof.
  destruct (event_action u d buf) as [E|(a & s & b & o & Ha & E)];
    rewrite E.
  - exists []. rewrite app_nil_r. split; reflexivity.
  - apply event_decoded_no_punch. destruct Ha; subst a; discriminate.
Qed.

Lemma no_punch_app ops1 ops2 :
  no_punch ops1 -> no_punch ops2 -> no_punch (ops1 ++ ops2).
Proof.
  unfold no_punch. intros H1 H2. rewrite forallb_app, H1, H2. reflexivity.
Qed.

Lemma realtime_no_punch transport : forall d,
  exists ops,
    invoked (fst (realtime pow d transport)) = invoked d ++ ops
    /\ no_punch ops.
Proof.
  induction transport as [|[buf u|] rest IH]; intros d; cbn [realtime fst].
  - exists []. rewrite app_nil_r. split; reflexivity.
  - destruct (event_no_punch u d buf) as (ops1 & E1 & Q1).
    destruct (IH (event pow u d buf)) as (ops2 & E2 & Q2).
    exists (ops1 ++ ops2). rewrite E2, E1, app_assoc.
    split; [reflexivity|apply no_punch_app; assumption].
  - exists []. rewrite app_nil_r. split; reflexivity.
Qed.

(** C1, at the inputs where the code departs from it.  A cue message
    whose [data1] is one of the four shifted literals is dispatched
    with [shift] true and with button [data1 - 0x28]: 0 and 1 for
    0x28 and 0x29, but 8 and 9 for 0x30 and 0x31, outside 0..3. *)
Theorem shifted_cue_buttons u d b2 :
  let on := negb (b2 =? 0) in
  event pow u d (mkMsg 0x91 0x28 b2) = event_decoded pow d CUE true 0 on
  /\ event pow u d (mkMsg 0x91 0x29 b2) = event_decoded pow d CUE true 1 on
  /\ event pow u d (mkMsg 0x91 0x30 b2) = event_decoded pow d CUE true 8 on
  /\ event pow u d (mkMsg 0x91 0x31 b2) = event_decoded pow d CUE true 9 on
  /\ event pow u d (mkMsg 0x91 0x30 0x7F) = invoke (deck_unset_cue 8) d.
Proof. repeat split; rewrite event_cue; reflexivity. Qed.

(** C5, at the input where the code departs from it.  A note message
    sets the nominal pitch to [note_pitch] when the unassigned local
    [shift] happens to hold false; when it holds true, the message
    (0x90, 0x3C, 0x7F) leaves the nominal pitch as it was and clears
    cue 0x3C instead. *)
Theorem note_message_needs_clear_shift d garbage b1 b2 :
  nominal_pitch (event pow (mkIndet garbage false) d (mkMsg 0x90 b1 b2))
  = note_pitch pow b1
  /\ event pow (mkIndet garbage true) d (mkMsg 0x90 0x3C 0x7F)
     = invoke (deck_unset_cue 0x3C) d
  /\ nominal_pitch
       (event pow (mkIndet garbage true) d (mkMsg 0x90 0x3C 0x7F))
     = nominal_pitch d.
Proof.
  split; [|split; reflexivity].
  rewrite event_note. cbn [shift0].
  rewrite event_decoded_note. reflexivity.
Qed.

(** C6.  For every button [b] and every action class, a shifted
    press invokes [deck_unset_cue b] and nothing else, the nominal
    pitch being untouched; a shifted release leaves the deck as it
    was. *)
Theorem shifted_dispatch d action b :
  event_decoded pow d action true b true
  = mkDeck (nominal_pitch d) (invoked d ++ [deck_unset_cue b])
  /\ event_decoded pow d action true b false = d.
Proof. split; reflexivity. Qed.

(** C9.  For a note message the flag [shift] reaches the dispatch
    with the value the stack frame holds.  When that value is true
    the nominal pitch is not written, and a nonzero [data2] clears
    the cue numbered [data1], which goes up to 127; when it is false
    the pitch is written.  So the update depends on a value the
    decoder never assigned. *)
Theorem note_shift_unassigned d garbage b1 b2 :
  let shifted := event pow (mkIndet garbage true) d (mkMsg 0x90 b1 b2) in
  let plain := event pow (mkIndet garbage false) d (mkMsg 0x90 b1 b2) in
  nominal_pitch shifted = nominal_pitch d
  /\ (b2 <> 0 -> invoked shifted = invoked d ++ [deck_unset_cue b1])
  /\ (b2 = 0 -> shifted = d)
  /\ plain = set_nominal_pitch (note_pitch pow b1) d
  /\ event pow (mkIndet garbage true) d (mkMsg 0x90 127 0x7F)
     = invoke (deck_unset_cue 127) d.
Proof.
  cbv zeta. rewrite !event_note. cbn [shift0].
  rewrite !event_decoded_shift, event_decoded_note.
  repeat split.
  - destruct (negb (b2 =? 0)); reflexivity.
  - intros Hb. apply Z.eqb_neq in Hb. rewrite Hb. reflexivity.
  - intros ->. reflexivity.
Qed.

(** C10.  Whatever the three bytes, [event] either leaves the deck
    alone or dispatches with action [CUE] or [NOTE], never [LOOP];
    and draining any sequence of transport reads appends to the
    deck's operations neither a punch-in nor a punch-out. *)
Theorem loop_never_decoded :
  (forall u d buf,
      event pow u d buf = d \/
      exists action shift button on,
        action <> LOOP /\
        event pow u d buf = event_decoded pow d action shift button on)
  /\ (forall transport d,
         exists ops,
           invoked (fst (realtime pow d transport)) = invoked d ++ ops
           /\ no_punch ops).
Proof.
  split.
  - intros u d buf.
    destruct (event_action u d buf) as [E|(a & s & b & o & Ha & E)];
      [left; exact E|right].
    exists a, s, b, o. split; [destruct Ha; subst a; discriminate|exact E].
  - intros transport d. apply realtime_no_punch.
Qed.

End Decoder.

(** The scenarios of the specification, run through the decoder. *)

Example scenario_cue_press :
  event pow_stub garbage_shifted fresh_deck (mkMsg 0x91 0x24 0x7F)
  = invoke (deck_cue 0) fresh_deck.
Proof. reflexivity. Qed.

Example scenario_shifted_press :
  event pow_stub garbage_shifted fresh_deck (mkMsg 0x91 0x28 0x7F)
  = invoke (deck_unset_cue 0) fresh_deck.
Proof. reflexivity. Qed.

Example scenario_unknown_status :
  event pow_stub garbage_shifted fresh_deck (mkMsg 0x92 0x24 0x7F)
  = fresh_deck.
Proof. reflexivity. Qed.

Example scenario_transport_error :
  realtime pow_stub fresh_deck
           [read_msg (mkMsg 0x91 0x25 0x7F) garbage_shifted; read_error;
            read_msg (mkMsg 0x91 0x26 0x7F) garbage_shifted]
  = (invoke (deck_cue 1) fresh_deck, -1).
Proof. reflexivity. Qed.

Lemma note_shift_unassigned_witness :
  0x7F <> 0 /\
  invoked (event pow_stub garbage_shifted fresh_deck (mkMsg 0x90 127 0x7F))
  = [deck_unset_cue 127].
Proof.
  split; [discriminate|].
  apply (note_shift_unassigned pow_stub fresh_deck 0 127 0x7F).
  discriminate.
Defined.

End DicerFacts.

(** ** The player *)

Module PlayerFacts.

Import Player Fixtures DoubleFacts.

(** C7.  For all 16-bit samples [y0..y3], the cubic interpolation at
    [mu = 0] (of either sign) is the conversion of [y1] to [double],
    with no rounding. *)
Theorem cubic_interpolate_at_zero y0 y1 y2 y3 s :
  is_short y0 -> is_short y1 -> is_short y2 -> is_short y3 ->
  cubic_interpolate (y0, y1, y2, y3) (S754_zero s) = of_Z y1.
Proof.
  unfold is_short, SHRT_MIN, SHRT_MAX. intros H0 H1 H2 H3.
  unfold cubic_interpolate.
  change (mul (S754_zero s) (S754_zero s)) with (S754_zero (xorb s s)).
  change (mul (S754_zero s) (S754_zero (xorb s s)))
    with (S754_zero (xorb s (xorb s s))).
  destruct (mul_zero_of_Z (xorb s (xorb s s)) (y3 - y2 - y0 + y1))
    as [s0 E0]; [lia|].
  destruct (mul_zero_of_Z (xorb s s) (y0 - y1 - (y3 - y2 - y0 + y1)))
    as [s1 E1]; [lia|].
  destruct (mul_zero_of_Z s (y2 - y0)) as [s2 E2]; [lia|].
  rewrite E0, E1, E2.
  destruct (add_zero_zero s0 s1) as [s01 E01]. rewrite E01.
  destruct (add_zero_zero s01 s2) as [s012 E012]. rewrite E012.
  apply add_zero_of_Z. lia.
Qed.

Lemma cubic_interpolate_at_zero_witness :
  (is_short (-32768) /\ is_short 12345 /\ is_short 32767 /\ is_short (-1))
  /\ cubic_interpolate (-32768, 12345, 32767, -1) zero = of_Z 12345.
Proof.
  assert (H : is_short (-32768) /\ is_short 12345 /\ is_short 32767
              /\ is_short (-1))
    by (unfold is_short, SHRT_MIN, SHRT_MAX; lia).
  split; [exact H|].
  destruct H as (H0 & H1 & H2 & H3).
  apply (cubic_interpolate_at_zero (-32768) 12345 32767 (-1) false);
    assumption.
Defined.

Section Rendering.

Variable cast_undefined : double -> Z.
Variable queue : Type.
Variable InterpolateQueue :
  queue -> double -> queue * double * option double.
Variable PLAYER_CHANNELS : nat.
Variable counter_wrap : Z -> Z.

Local Abbreviation player := (player queue).
Local Abbreviation advance := (advance InterpolateQueue counter_wrap).
Local Abbreviation render_sample :=
  (render_sample cast_undefined InterpolateQueue PLAYER_CHANNELS
                 counter_wrap).
Local Abbreviation build_pcm_from :=
  (build_pcm_from cast_undefined InterpolateQueue PLAYER_CHANNELS
                  counter_wrap).
Local Abbreviation build_pcm :=
  (build_pcm cast_undefined InterpolateQueue PLAYER_CHANNELS
             counter_wrap).
Local Abbreviation player_collect :=
  (player_collect cast_undefined InterpolateQueue PLAYER_CHANNELS
                  counter_wrap).
Local Abbreviation queue_silent := (queue_silent InterpolateQueue).

(** C4.  With [recalibrate] clear, if the difference [position -
    target_position] computed by [retarget] exceeds 1/8 in absolute
    value, [retarget] returns a player whose position is the target
    position, whatever the pitch, and whose [sync_pitch] and target
    are those it had. *)
Theorem retarget_hard_seek (pl : player) :
  recalibrate pl = false ->
  gtb (fabs (sub (position pl) (target_position pl)))
      (div (of_Z 1) (of_Z 8)) = true ->
  exists pl',
    retarget pl = Some pl'
    /\ position pl' = target_position pl
    /\ sync_pitch pl' = sync_pitch pl
    /\ target_position pl' = target_position pl
    /\ pitch pl' = pitch pl.
Proof.
  intros Hr Hd. unfold retarget. rewrite Hr.
  cbn [position target_position set_last_difference].
  fold SKIP_THRESHOLD in Hd. rewrite Hd.
  eexists. split; [reflexivity|]. repeat split.
Qed.

(** *** The position update *)

Lemma advance_silent (pl : player) q ts :
  InterpolateQueue (scqueue pl) (timestamp pl) = (q, ts, None) ->
  position (advance pl) = add (position pl) (pitch pl)
  /\ pitch (advance pl) = pitch pl
  /\ scqueue (advance pl) = q
  /\ timestamp (advance pl) = ts.
Proof.
  intros E. unfold Player.advance. rewrite E. repeat split.
Qed.

Lemma render_sample_player s (pl : player) out :
  fst (render_sample s (pl, out)) = advance pl.
Proof.
  unfold Player.render_sample.
  destruct (locate cast_undefined (sample_coordinate (advance pl))).
  reflexivity.
Qed.

Lemma build_pcm_from_silent n : forall s (pl : player) out,
  queue_silent n (scqueue pl) (timestamp pl) ->
  position (fst (build_pcm_from s n (pl, out)))
  = Nat.iter n (fun p => add p (pitch pl)) (position pl)
  /\ pitch (fst (build_pcm_from s n (pl, out))) = pitch pl.
Proof.
  induction n as [|n IH]; intros s pl out Hq.
  - split; reflexivity.
  - cbn [Player.build_pcm_from].
    cbn [Player.queue_silent] in Hq.
    destruct (InterpolateQueue (scqueue pl) (timestamp pl))
      as [[q ts] entry] eqn:E.
    destruct Hq as [-> Hq].
    destruct (advance_silent pl q ts E) as (Hpos & Hpitch & Hqueue & Hts).
    pose proof (render_sample_player s pl out) as Hfst.
    destruct (render_sample s (pl, out)) as [pl1 out1].
    cbn [fst] in Hfst. subst pl1.
    rewrite <- Hqueue, <- Hts in Hq.
    destruct (IH (S s) (advance pl) out1 Hq) as [IHpos IHpitch].
    rewrite IHpos, IHpitch, Hpitch, Hpos.
    split; [|reflexivity].
    rewrite Nat.iter_succ_r. reflexivity.
Qed.

(** C3, amended.  Over a run of [N] rendered samples during which the
    queue yields no entry, the pitch keeps its value [P] and the
    position after the run is the position before it to which [P]
    has been added [N] times, each addition rounded to binary64. *)
Theorem dead_reckoning (pl : player) out N :
  queue_silent N (scqueue pl) (timestamp pl) ->
  position (fst (build_pcm pl out N))
  = Nat.iter N (fun p => add p (pitch pl)) (position pl)
  /\ pitch (fst (build_pcm pl out N)) = pitch pl.
Proof. apply build_pcm_from_silent. Qed.

(** *** Updates of the player that the rendering does not observe *)

Section Frame.

Variable upd : player -> player.
Hypothesis upd_advance : forall pl, advance (upd pl) = upd (advance pl).
Hypothesis upd_position : forall pl, position (upd pl) = position pl.
Hypothesis upd_length :
  forall pl, length (pl_track (upd pl)) = length (pl_track pl).
Hypothesis upd_samples :
  forall pl,
    track_get_sample (pl_track (upd pl)) = track_get_sample (pl_track pl).

Lemma render_channel_frame pl sa f s out c :
  render_channel cast_undefined (pl_track (upd pl)) sa f s out c
  = render_channel cast_undefined (pl_track pl) sa f s out c.
Proof.
  unfold render_channel, window, tap.
  rewrite upd_length, upd_samples. reflexivity.
Qed.

Lemma render_channels_frame pl sa f s cs : forall out,
  fold_left (render_channel cast_undefined (pl_track (upd pl)) sa f s)
            cs out
  = fold_left (render_channel cast_undefined (pl_track pl) sa f s)
              cs out.
Proof.
  induction cs as [|c cs IH]; intros out; [reflexivity|].
  cbn [fold_left]. rewrite render_channel_frame. apply IH.
Qed.

Lemma render_sample_frame s pl out :
  render_sample s (upd pl, out)
  = (upd (fst (render_sample s (pl, out))),
     snd (render_sample s (pl, out))).
Proof.
  unfold Player.render_sample, sample_coordinate.
  rewrite upd_advance, upd_position.
  destruct (locate cast_undefined
                   (mul (position (advance pl)) (of_Z 48000)))
    as [sa f].
  cbn [fst snd]. rewrite render_channels_frame. reflexivity.
Qed.

Lemma build_pcm_from_frame n : forall s pl out,
  build_pcm_from s n (upd pl, out)
  = (upd (fst (build_pcm_from s n (pl, out))),
     snd (build_pcm_from s n (pl, out))).
Proof.
  induction n as [|n IH]; intros s pl out; [reflexivity|].
  cbn [Player.build_pcm_from]. rewrite render_sample_frame.
  destruct (render_sample s (pl, out)) as [pl1 out1]. cbn [fst snd].
  apply IH.
Qed.

End Frame.

Lemma advance_with_rate r (pl : player) :
  advance (with_rate r pl) = with_rate r (advance pl).
Proof.
  unfold Player.advance, with_rate. cbn [scqueue timestamp set_track].
  destruct (InterpolateQueue (scqueue pl) (timestamp pl))
    as [[q ts] [target|]]; reflexivity.
Qed.

Lemma advance_set_lock b (pl : player) :
  advance (set_lock b pl) = set_lock b (advance pl).
Proof.
  unfold Player.advance. cbn [scqueue timestamp set_lock].
  destruct (InterpolateQueue (scqueue pl) (timestamp pl))
    as [[q ts] [target|]]; reflexivity.
Qed.

Lemma set_lock_same (pl : player) : set_lock (lock pl) pl = pl.
Proof. destruct pl; reflexivity. Qed.

Lemma build_pcm_set_lock b (pl : player) out n :
  build_pcm (set_lock b pl) out n
  = (set_lock b (fst (build_pcm pl out n)), snd (build_pcm pl out n)).
Proof.
  unfold Player.build_pcm.
  apply (build_pcm_from_frame (set_lock b)); try reflexivity.
  apply advance_set_lock.
Qed.

Lemma player_collect_cases (pl : player) out n :
  (lock pl = true -> player_collect pl out n = (pl, out))
  /\ (lock pl = false ->
      player_collect pl out n
      = (set_lock false (fst (build_pcm (set_lock true pl) out n)),
         snd (build_pcm (set_lock true pl) out n))
      /\ player_collect pl out n = build_pcm pl out n
      /\ lock (fst (player_collect pl out n)) = false).
Proof.
  unfold Player.player_collect, spin_try_lock, spin_unlock.
  split; intros Hl; rewrite Hl; cbn [negb]; [reflexivity|].
  destruct (Player.build_pcm cast_undefined InterpolateQueue
              PLAYER_CHANNELS counter_wrap (set_lock true pl) out n)
    as [pl1 out1] eqn:E.
  cbn [fst snd]. split; [reflexivity|].
  split; [|reflexivity].
  rewrite build_pcm_set_lock in E. injection E as <- <-.
  assert (HB : build_pcm pl out n
               = (set_lock false (fst (build_pcm pl out n)),
                  snd (build_pcm pl out n))).
  { rewrite <- (build_pcm_set_lock false pl out n).
    rewrite <- Hl, set_lock_same. reflexivity. }
  etransitivity; [|symmetry; exact HB]. reflexivity.
Qed.

(** C2.  What the code does where the text expects the native rate:
    the coordinate from which a sample is rendered is the position
    multiplied by the constant 48000; the native rate of the bound
    track plays no part.  Binding a track of any other
    rate with the same samples gives the same output and the same
    player; when [p * 48000] is not negative, the window of the
    sample rendered from position [p] starts one sample before the
    integer part [k] of [p * 48000] and holds the samples [k-1],
    [k], [k+1], [k+2] of the track. *)
Theorem coordinate_fixed_rate (pl : player) :
  (forall r out n,
      build_pcm (with_rate r pl) out n
      = (with_rate r (fst (build_pcm pl out n)),
         snd (build_pcm pl out n)))
  /\ (forall s out,
         render_sample s (pl, out)
         = let pl' := advance pl in
           let '(sa, f) :=
             locate cast_undefined (mul (position pl') (of_Z 48000)) in
           (pl', fold_left
                   (render_channel cast_undefined (pl_track pl') sa f s)
                   (seq 0 PLAYER_CHANNELS) out))
  /\ (forall k c,
         trunc (mul (position pl) (of_Z 48000)) = Some k ->
         ltb (mul (position pl) (of_Z 48000)) zero = false ->
         INT_MIN + 1 <= k <= INT_MAX - 2 ->
         let sample := mul (position pl) (of_Z 48000) in
         locate cast_undefined sample = (k - 1, sub sample (of_Z k))
         /\ window (pl_track pl) (k - 1) c
            = (tap (pl_track pl) (k - 1) c, tap (pl_track pl) k c,
               tap (pl_track pl) (k + 1) c, tap (pl_track pl) (k + 2) c)).
Proof.
  split; [|split].
  - intros r out n. unfold Player.build_pcm.
    apply (build_pcm_from_frame (with_rate r)); try reflexivity.
    apply advance_with_rate.
  - reflexivity.
  - intros k c Hk Hsign Hrange. cbv zeta.
    unfold INT_MIN, INT_MAX in Hrange.
    split.
    + unfold locate, cast_int. rewrite Hk, Hsign.
      replace ((INT_MIN <=? k) && (k <=? INT_MAX)) with true
        by (symmetry; apply andb_true_intro; unfold INT_MIN, INT_MAX;
            split; apply Z.leb_le; lia).
      rewrite int_wrap_id by (unfold INT_MIN, INT_MAX; lia).
      reflexivity.
    + unfold window.
      replace (k - 1 + 1) with k by lia.
      replace (k - 1 + 2) with (k + 1) by lia.
      replace (k - 1 + 3) with (k + 2) by lia.
      rewrite !int_wrap_id by (unfold INT_MIN, INT_MAX; lia).
      reflexivity.
Qed.

End Rendering.

(** *** The theorems at concrete players *)

Example dither_first_draw :
  dither dither_seed
  = (0x7ddff59d, S754_finite false 6742205301522432 (-54)).
Proof. vm_compute. reflexivity. Qed.

Example silent_block_at_rest :
  fst (snd (build_pcm cast_saturating pop_queue 2 uint_wrap
                      (idle_player zero zero false) (silence 4) 2))
  = [0; 0; 0; 0].
Proof. vm_compute. reflexivity. Qed.

Lemma retarget_hard_seek_witness :
  let pl := idle_player (of_Z 1) tenth false in
  recalibrate pl = false
  /\ gtb (fabs (sub (position pl) (target_position pl)))
         (div (of_Z 1) (of_Z 8)) = true
  /\ exists pl',
      retarget pl = Some pl'
      /\ position pl' = target_position pl
      /\ sync_pitch pl' = sync_pitch pl
      /\ target_position pl' = target_position pl
      /\ pitch pl' = pitch pl.
Proof.
  cbv zeta. split; [reflexivity|]. split; [reflexivity|].
  apply (retarget_hard_seek list_queue (idle_player (of_Z 1) tenth false));
    reflexivity.
Defined.

Lemma dead_reckoning_witness :
  let pl := normal_play in
  queue_silent pop_queue 7 (scqueue pl) (timestamp pl)
  /\ position (fst (build_pcm cast_saturating pop_queue 2 uint_wrap pl
                              (silence 14) 7))
     = Nat.iter 7 (fun p => add p (pitch pl)) (position pl).
Proof.
  cbv zeta.
  assert (H : queue_silent pop_queue 7 (scqueue normal_play)
                           (timestamp normal_play))
    by (simpl; repeat split).
  split; [exact H|].
  apply (dead_reckoning cast_saturating list_queue pop_queue 2 uint_wrap
                        normal_play (silence 14) 7 H).
Defined.

(** C3 as stated fails.  At normal speed (a pitch of 1/48000 second per
    sample) from position 0, seven samples rendered with an empty
    queue leave a position that is not [0 + 7 * P]: neither with the
    product rounded to binary64, nor as exact numbers. *)
Lemma dead_reckoning_not_exact :
  let pl := normal_play in
  let after :=
    position (fst (build_pcm cast_saturating pop_queue 2 uint_wrap pl
                             (silence 14) 7)) in
  queue_silent pop_queue 7 (scqueue pl) (timestamp pl)
  /\ after <> add (position pl) (mul (of_Z 7) (pitch pl))
  /\ exists a b c,
      scaled after = Some a /\ scaled (position pl) = Some b
      /\ scaled (pitch pl) = Some c /\ a <> b + 7 * c.
Proof.
  cbv zeta. split; [simpl; repeat split|]. split.
  - vm_compute. discriminate.
  - eexists _, _, _. split; [vm_compute; reflexivity|].
    split; [vm_compute; reflexivity|]. split; [vm_compute; reflexivity|].
    vm_compute. discriminate.
Qed.

Lemma coordinate_fixed_rate_witness :
  let pl := idle_player (of_Z 1) zero false in
  (trunc (mul (position pl) (of_Z 48000)) = Some 48000
   /\ ltb (mul (position pl) (of_Z 48000)) zero = false
   /\ INT_MIN + 1 <= 48000 <= INT_MAX - 2)
  /\ locate cast_saturating (mul (position pl) (of_Z 48000))
     = (47999, sub (mul (position pl) (of_Z 48000)) (of_Z 48000))
  /\ window (pl_track pl) 47999 0
     = (tap (pl_track pl) 47999 0, tap (pl_track pl) 48000 0,
        tap (pl_track pl) 48001 0, tap (pl_track pl) 48002 0).
Proof.
  cbv zeta.
  assert (H : trunc (mul (position (idle_player (of_Z 1) zero false))
                         (of_Z 48000)) = Some 48000
              /\ ltb (mul (position (idle_player (of_Z 1) zero false))
                          (of_Z 48000)) zero = false
              /\ INT_MIN + 1 <= 48000 <= INT_MAX - 2)
    by (split; [reflexivity|split;
                             [reflexivity|unfold INT_MIN, INT_MAX; lia]]).
  split; [exact H|]. destruct H as (Ht & Hs & Hr).
  exact (proj2 (proj2 (coordinate_fixed_rate cast_saturating list_queue
                         pop_queue 2 uint_wrap
                         (idle_player (of_Z 1) zero false)))
               48000 0%nat Ht Hs Hr).
Defined.

(** C2 does not hold of the code.  A player at position 1 s, at rest, bound to a
    44.1 kHz track: the window is read around sample 48000 of the
    track, not around sample 44100, and the block rendered is half of
    sample 48000. *)
Lemma coordinate_not_native_rate :
  let pl := idle_player (of_Z 1) zero false in
  let pl' := advance pop_queue uint_wrap pl in
  rate (pl_track pl') = 44100
  /\ position pl' = of_Z 1
  /\ locate cast_saturating (sample_coordinate pl') = (47999, zero)
  /\ locate cast_saturating (native_coordinate pl') = (44099, zero)
  /\ window (pl_track pl') 47999 0 = (15231, 15232, 15233, 15234)
  /\ window (pl_track pl') 44099 0 = (11331, 11332, 11333, 11334)
  /\ sample_coordinate pl' <> native_coordinate pl'
  /\ fst (snd (build_pcm cast_saturating pop_queue 2 uint_wrap pl
                         (silence 2) 1)) = [7616; 7616].
Proof.
  cbv zeta. repeat split; try (vm_compute; reflexivity).
  vm_compute. discriminate.
Qed.

End PlayerFacts.

(** ** Further properties of the Dicer decoder *)

Module DicerMore.

Import Dicer Fixtures DicerFacts.

Section Decoder.

Variable pow : double -> double -> double.

(** A message whose status is neither 0x90 nor 0x91 is dropped, and so
    is a cue message (0x91) whose [data1] is none of the eight literals
    of the two [case] groups: the deck is left as it was. *)
Theorem event_ignores_unrecognised u d buf :
  (status buf <> 0x90 -> status buf <> 0x91 -> event pow u d buf = d)
  /\ (status buf = 0x91 ->
      ~ In (data1 buf) [0x24; 0x25; 0x26; 0x27; 0x28; 0x29; 0x30; 0x31] ->
      event pow u d buf = d).
Proof.
  split.
  - intros H90 H91. unfold event.
    apply Z.eqb_neq in H90. apply Z.eqb_neq in H91.
    rewrite H90, H91. reflexivity.
  - intros Hs Hd. destruct buf as [b0 b1 b2]. cbn [status data1] in *.
    subst b0. rewrite event_cue.
    assert (Hne : forall v, In v [0x24; 0x25; 0x26; 0x27; 0x28; 0x29;
                                   0x30; 0x31] -> (b1 =? v) = false).
    { intros v Hv. apply Z.eqb_neq. intros ->. exact (Hd Hv). }
    rewrite !Hne by (cbn [In]; tauto). reflexivity.
Qed.

(** A cue message whose [data1] lies in 0x24..0x27 addresses button
    [data1 - 0x24], which lies in 0..3, without shift: a press invokes
    [deck_cue] on that button and nothing else, a release nothing. *)
Theorem unshifted_cue_press u d b1 b2 :
  0x24 <= b1 <= 0x27 ->
  0 <= b1 - 0x24 <= 3
  /\ event pow u d (mkMsg 0x91 b1 b2)
     = if b2 =? 0 then d else invoke (deck_cue (b1 - 0x24)) d.
Proof.
  intros Hb. split; [lia|].
  rewrite event_cue.
  assert (E : (b1 =? 0x24) || (b1 =? 0x25) || (b1 =? 0x26) || (b1 =? 0x27)
              = true).
  { assert (C : b1 = 0x24 \/ b1 = 0x25 \/ b1 = 0x26 \/ b1 = 0x27) by lia.
    destruct C as [-> | [-> | [-> | ->]]]; reflexivity. }
  rewrite E, event_decoded_cue.
  unfold uchar_wrap. rewrite Z.mod_small by lia.
  destruct (b2 =? 0); reflexivity.
Qed.

(** A cue message with [data2 = 0] (a release) never changes the deck,
    whatever [data1]. *)
Theorem cue_release_ignored u d b1 :
  event pow u d (mkMsg 0x91 b1 0) = d.
Proof.
  rewrite event_cue. cbn [Z.eqb negb].
  rewrite event_decoded_cue, event_decoded_shift.
  destruct ((b1 =? 0x24) || (b1 =? 0x25) || (b1 =? 0x26) || (b1 =? 0x27));
    [reflexivity|].
  destruct ((b1 =? 0x28) || (b1 =? 0x29) || (b1 =? 0x30) || (b1 =? 0x31));
    reflexivity.
Qed.

Lemma event_decoded_effect d action shift button on :
  exists ops,
    invoked (event_decoded pow d action shift button on) = invoked d ++ ops
    /\ (List.length ops <= 1)%nat
    /\ (ops <> [] ->
        nominal_pitch (event_decoded pow d action shift button on)
        = nominal_pitch d)
    /\ (action <> NOTE ->
        nominal_pitch (event_decoded pow d action shift button on)
        = nominal_pitch d).
Proof.
  assert (Hnil : invoked d = invoked d ++ []) by (symmetry; apply app_nil_r).
  unfold event_decoded.
  destruct (action =? NOTE) eqn:EN.
  - apply Z.eqb_eq in EN. subst action.
    change (NOTE =? CUE) with false. change (NOTE =? LOOP) with false.
    destruct shift, on; cbn [andb invoke invoked nominal_pitch
                                  set_nominal_pitch];
      [ exists [deck_unset_cue button] | exists [] | exists [] | exists [] ];
      (split; [first [reflexivity | exact Hnil]|]);
      (split; [cbn; lia|]);
      (split; intros H; first [reflexivity | exfalso; apply H; reflexivity]).
  - assert (Hne : action <> NOTE) by (apply Z.eqb_neq; exact EN).
    destruct (action =? CUE) eqn:EC; destruct (action =? LOOP) eqn:EL;
      try (apply Z.eqb_eq in EC; apply Z.eqb_eq in EL; exfalso;
           rewrite EC in EL; discriminate);
      destruct shift, on;
      cbn [andb invoke invoked nominal_pitch set_nominal_pitch];
      first [ exists [];
              (split; [exact Hnil|]); (split; [cbn; lia|]);
              split; intros _; reflexivity
            | eexists [_];
              (split; [reflexivity|]); (split; [cbn; lia|]);
              split; intros _; reflexivity ].
Qed.

Lemma event_cases u d buf :
  event pow u d buf = d
  \/ (status buf = 0x90
      /\ event pow u d buf
         = event_decoded pow d NOTE (shift0 u) (data1 buf)
                         (negb (data2 buf =? 0)))
  \/ (status buf = 0x91
      /\ exists shift button,
          event pow u d buf
          = event_decoded pow d CUE shift button (negb (data2 buf =? 0))).
Proof.
  unfold event.
  destruct (status buf =? 0x90) eqn:E90.
  - right. left. apply Z.eqb_eq in E90. split; [exact E90|reflexivity].
  - destruct (status buf =? 0x91) eqn:E91; [|left; reflexivity].
    apply Z.eqb_eq in E91.
    change ((CUE =? CUE) || (CUE =? LOOP)) with true. cbv iota.
    destruct ((data1 buf =? 0x24) || (data1 buf =? 0x25)
              || (data1 buf =? 0x26) || (data1 buf =? 0x27)).
    + right. right. split; [exact E91|]. eexists _, _. reflexivity.
    + destruct ((data1 buf =? 0x28) || (data1 buf =? 0x29)
                || (data1 buf =? 0x30) || (data1 buf =? 0x31)).
      * right. right. split; [exact E91|]. eexists _, _. reflexivity.
      * left. reflexivity.
Qed.

Lemma event_appends u d buf :
  exists ops,
    invoked (event pow u d buf) = invoked d ++ ops
    /\ (List.length ops <= 1)%nat.
Proof.
  destruct (event_cases u d buf) as [E|[[Hs E]|[Hs (s & b & E)]]]; rewrite E.
  - exists []. rewrite app_nil_r. split; [reflexivity|cbn; lia].
  - destruct (event_decoded_effect d NOTE (shift0 u) (data1 buf)
                                   (negb (data2 buf =? 0)))
      as (ops & Ei & L & _).
    exists ops. split; assumption.
  - destruct (event_decoded_effect d CUE s b (negb (data2 buf =? 0)))
      as (ops & Ei & L & _).
    exists ops. split; assumption.
Qed.

(** One message makes [event] invoke at most one deck operation, and a
    message that invokes one leaves the nominal pitch alone: no message
    both acts on a cue and retunes.  A message whose status is not 0x90
    never changes the nominal pitch. *)
Theorem event_single_effect u d buf :
  exists ops,
    invoked (event pow u d buf) = invoked d ++ ops
    /\ (List.length ops <= 1)%nat
    /\ (ops <> [] -> nominal_pitch (event pow u d buf) = nominal_pitch d)
    /\ (status buf <> 0x90 ->
        nominal_pitch (event pow u d buf) = nominal_pitch d).
Proof.
  destruct (event_cases u d buf) as [E|[[Hs E]|[Hs (s & b & E)]]]; rewrite E.
  - exists []. rewrite app_nil_r. repeat split. cbn; lia.
  - destruct (event_decoded_effect d NOTE (shift0 u) (data1 buf)
                                   (negb (data2 buf =? 0)))
      as (ops & Ei & L & P & _).
    exists ops. repeat split; try assumption. intros H; contradiction.
  - destruct (event_decoded_effect d CUE s b (negb (data2 buf =? 0)))
      as (ops & Ei & L & P & Q).
    exists ops. repeat split; try assumption.
    intros _. apply Q. discriminate.
Qed.

(** A drain invokes at most as many deck operations as it reads
    messages, and only ever appends to what was invoked before. *)
Theorem realtime_operation_count transport : forall d,
  exists ops,
    invoked (fst (realtime pow d transport)) = invoked d ++ ops
    /\ (List.length ops <= List.length (before_error transport))%nat.
Proof.
  induction transport as [|[buf u|] rest IH]; intros d;
    cbn [realtime fst before_error].
  - exists []. rewrite app_nil_r. split; [reflexivity|cbn; lia].
  - destruct (event_appends u d buf) as (ops1 & E1 & L1).
    destruct (IH (event pow u d buf)) as (ops2 & E2 & L2).
    exists (ops1 ++ ops2). rewrite E2, E1, app_assoc.
    split; [reflexivity|]. rewrite length_app. cbn [List.length]. lia.
  - exists []. rewrite app_nil_r. split; [reflexivity|cbn; lia].
Qed.

(** Punch-in and punch-out come from the [LOOP] action alone: a
    dispatch invokes one of them exactly when its action is [LOOP] and
    shift is off; then a press punches in at the button and a release
    punches out, whatever the button. *)
Theorem punch_only_from_loop d action shift button on :
  (existsb is_punch
           (skipn (List.length (invoked d))
                  (invoked (event_decoded pow d action shift button on)))
   = true <-> action = LOOP /\ shift = false)
  /\ event_decoded pow d LOOP false button true
     = invoke (deck_punch_in button) d
  /\ event_decoded pow d LOOP false button false = invoke deck_punch_out d.
Proof.
  split; [|split; reflexivity].
  assert (Hskip : forall ops, skipn (List.length (invoked d)) (invoked d ++ ops)
                              = ops).
  { intros ops. rewrite skipn_app, skipn_all, Nat.sub_diag. reflexivity. }
  unfold event_decoded.
  destruct (action =? LOOP) eqn:EL.
  - apply Z.eqb_eq in EL. subst action.
    change (LOOP =? CUE) with false. change (LOOP =? NOTE) with false.
    destruct shift, on; cbn [andb negb invoke invoked];
      rewrite ?Hskip; cbn;
      try (rewrite <- (app_nil_r (invoked d)) at 2; rewrite Hskip; cbn);
      split; intros H; try discriminate; try tauto;
      destruct H; discriminate.
  - assert (Hne : action <> LOOP) by (apply Z.eqb_neq; exact EL).
    destruct shift, on, (action =? CUE), (action =? NOTE);
      cbn [andb negb invoke invoked set_nominal_pitch];
      rewrite ?Hskip; cbn;
      try (rewrite <- (app_nil_r (invoked d)) at 2; rewrite Hskip; cbn);
      split; intros H; try discriminate; destruct H; contradiction.
Qed.

(** [realtime] hands to the deck exactly the messages read before the
    first failed read, in order, and ignores what follows; it returns
    -1 when a read failed and 0 when the transport ran dry. *)
Theorem realtime_until_error transport : forall d,
  realtime pow d transport
  = (fold_left (dispatch pow) (before_error transport) d,
     if has_error transport then -1 else 0).
Proof.
  induction transport as [|[buf u|] rest IH]; intros d.
  - reflexivity.
  - cbn [realtime before_error fold_left]. rewrite IH. reflexivity.
  - reflexivity.
Qed.

(** Draining a transport in two calls gives the deck of one call over
    both parts, provided the first part read without error. *)
Theorem realtime_append t1 t2 d :
  has_error t1 = false ->
  realtime pow d (t1 ++ t2) = realtime pow (fst (realtime pow d t1)) t2.
Proof.
  revert d. induction t1 as [|[buf u|] rest IH]; intros d He.
  - reflexivity.
  - cbn [app realtime]. apply IH. exact He.
  - discriminate He.
Qed.

End Decoder.

(** [dicer_init] returns 0 exactly when [malloc], [midi_open] and
    [controller_init] all succeed, and -1 otherwise.  On failure every
    resource acquired so far has been released again; on success the
    controller holds one block of memory and one MIDI handle, and
    [clear] releases both.  On every path, and through [clear] after a
    success, the MIDI handle is closed before the memory that holds it
    is freed: at no point is the handle open without its block. *)
Theorem dicer_init_unwinds o :
  (fst (dicer_init o) = 0 <->
   malloc_ok o = true /\ midi_open_ok o = true /\ controller_init_ok o = true)
  /\ (fst (dicer_init o) <> 0 ->
      fst (dicer_init o) = -1
      /\ holdings (snd (dicer_init o)) (0%nat, 0%nat)
         = Some (0%nat, 0%nat))
  /\ (fst (dicer_init o) = 0 ->
      holdings (snd (dicer_init o)) (0%nat, 0%nat) = Some (1%nat, 1%nat)
      /\ holdings (snd (dicer_init o) ++ clear) (0%nat, 0%nat)
         = Some (0%nat, 0%nat))
  /\ handle_within_block
       (snd (dicer_init o)
        ++ (if fst (dicer_init o) =? 0 then clear else []))
       (0%nat, 0%nat) = true.
Proof.
  destruct o as [[|] [|] [|]]; cbn; intuition congruence.
Qed.

Lemma event_ignores_unrecognised_witness :
  event pow_stub garbage_shifted fresh_deck (mkMsg 0x80 0x24 0x7F)
  = fresh_deck
  /\ event pow_stub garbage_shifted fresh_deck (mkMsg 0x91 0x2A 0x7F)
     = fresh_deck.
Proof.
  split.
  - apply (proj1 (event_ignores_unrecognised pow_stub garbage_shifted
                    fresh_deck (mkMsg 0x80 0x24 0x7F)));
      cbn [status]; discriminate.
  - apply (proj2 (event_ignores_unrecognised pow_stub garbage_shifted
                    fresh_deck (mkMsg 0x91 0x2A 0x7F)));
      [reflexivity|].
    cbn [data1 In]. intros H.
    repeat (destruct H as [H|H]; [discriminate H|]). exact H.
Defined.

Lemma unshifted_cue_press_witness :
  0x24 <= 0x26 <= 0x27
  /\ event pow_stub garbage_shifted fresh_deck (mkMsg 0x91 0x26 0x40)
     = invoke (deck_cue 2) fresh_deck.
Proof.
  assert (H : 0x24 <= 0x26 <= 0x27) by lia.
  split; [exact H|].
  exact (proj2 (unshifted_cue_press pow_stub garbage_shifted fresh_deck
                                    0x26 0x40 H)).
Defined.

Lemma realtime_append_witness :
  let t1 := [read_msg (mkMsg 0x91 0x24 0x7F) garbage_shifted] in
  let t2 := [read_msg (mkMsg 0x91 0x28 0x7F) garbage_shifted; read_error] in
  has_error t1 = false
  /\ realtime pow_stub fresh_deck (t1 ++ t2)
     = realtime pow_stub (fst (realtime pow_stub fresh_deck t1)) t2.
Proof.
  cbv zeta. split; [reflexivity|].
  apply (realtime_append pow_stub). reflexivity.
Defined.

End DicerMore.

(** ** Further properties of the player *)

Module PlayerMore.

Import Player Fixtures DoubleFacts PlayerFacts.

(** *** Subtraction of a number from itself *)

Lemma sub_diag_finite x : finite x = true -> sub x x = zero.
Proof.
  destruct x as [[|]| | |s m e]; try discriminate; intros _;
    try reflexivity.
  unfold sub, SFsub. rewrite Z.sub_diag. reflexivity.
Qed.

Lemma sub_diag_near x : gtb (fabs (sub x x)) SKIP_THRESHOLD = false.
Proof.
  destruct x as [[|]|[|]| |s m e]; try reflexivity.
  rewrite sub_diag_finite by reflexivity. reflexivity.
Qed.

Lemma sub_zero_r x : sub x zero = x.
Proof. destruct x as [[|]|[|]| |s m e]; reflexivity. Qed.

Lemma eqb_unknown t :
  SFeqb t TARGET_UNKNOWN = true <-> t = S754_infinity false.
Proof.
  split; [|intros ->; reflexivity].
  destruct t as [[|]|[|]| |[|] m e]; try discriminate; reflexivity.
Qed.

(** *** Comparison within a tolerance *)

Lemma abs_binary_round s s' p e :
  SFabs (binary_round prec emax s p e) = SFabs (binary_round prec emax s' p e).
Proof.
  unfold binary_round.
  destruct (shl_align p e (fexp prec emax (Zpos (digits2_pos p) + e)))
    as [mz ez].
  unfold binary_round_aux.
  destruct (shr_fexp prec emax (Zpos mz) ez loc_Exact) as [mrs e'].
  destruct (shr_fexp prec emax
              (round_nearest_even (shr_m mrs) (loc_of_shr_record mrs))
              e' loc_Exact) as [mrs' e''].
  destruct (shr_m mrs') as [|m|m]; [reflexivity| |reflexivity].
  destruct (e'' <=? emax - prec); reflexivity.
Qed.

Lemma abs_binary_normalize_opp M e :
  SFabs (binary_normalize prec emax (- M) e false)
  = SFabs (binary_normalize prec emax M e false).
Proof.
  destruct M as [|p|p]; [reflexivity| |]; cbn [Z.opp binary_normalize];
    apply abs_binary_round.
Qed.

Lemma fabs_sub_comm a b : fabs (sub a b) = fabs (sub b a).
Proof.
  destruct a as [sa|sa| |sa ma ea], b as [sb|sb| |sb mb eb];
    try (destruct sa, sb; reflexivity); try reflexivity.
  unfold fabs, sub, SFsub. rewrite (Z.min_comm eb ea).
  rewrite <- abs_binary_normalize_opp. f_equal. f_equal. lia.
Qed.

Lemma fabs_not_below x tol :
  ltb zero tol = false -> ltb (fabs x) tol = false.
Proof.
  destruct x as [sx|sx| |sx mx ex], tol as [[|]|[|]| |[|] mt et];
    try reflexivity; discriminate.
Qed.

(** [NearlyEqual] does not depend on the order of the two values; it
    is false as soon as one of them is a NaN, and for every tolerance
    that is not above zero. *)
Theorem NearlyEqual_symmetric val1 val2 tolerance :
  NearlyEqual val1 val2 tolerance = NearlyEqual val2 val1 tolerance
  /\ NearlyEqual S754_nan val2 tolerance = false
  /\ NearlyEqual val1 S754_nan tolerance = false
  /\ (ltb zero tolerance = false ->
      NearlyEqual val1 val2 tolerance = false).
Proof.
  unfold NearlyEqual. split; [rewrite fabs_sub_comm; reflexivity|].
  split; [reflexivity|].
  split; [destruct val1; reflexivity|].
  apply fabs_not_below.
Qed.

Lemma NearlyEqual_symmetric_witness :
  ltb zero (SFopp tenth) = false
  /\ NearlyEqual (of_Z 1) (of_Z 1) (SFopp tenth) = false.
Proof.
  split; [reflexivity|].
  apply (NearlyEqual_symmetric (of_Z 1) (of_Z 1) (SFopp tenth)).
  reflexivity.
Defined.

(** *** Silence *)

Lemma zero_fill_spec pcm : forall n,
  List.length (zero_fill pcm n) = List.length pcm
  /\ (forall i d, (i < n)%nat -> (i < List.length pcm)%nat ->
                  nth i (zero_fill pcm n) d = 0)
  /\ (forall i d, (n <= i)%nat -> nth i (zero_fill pcm n) d = nth i pcm d).
Proof.
  induction pcm as [|w rest IH]; intros [|n]; cbn [zero_fill List.length];
    try (repeat split; intros; try reflexivity; cbn in *; lia).
  destruct (IH n) as (L & Z0 & K).
  split; [rewrite L; reflexivity|]. split.
  - intros [|i] d Hi Hl; [reflexivity|]. cbn [nth].
    apply Z0; cbn in Hl; lia.
  - intros [|i] d Hi; [lia|]. cbn [nth]. apply K. lia.
Qed.

(** [build_silence] meets its comment: the first
    [PLAYER_CHANNELS * samples] values of the buffer are zero, the
    others and the length of the buffer are kept, and the value
    returned is [sample_dt * pitch * samples]. *)
Theorem build_silence_post channels pcm samples dt ptch :
  let '(pcm', advanced) := build_silence channels pcm samples dt ptch in
  List.length pcm' = List.length pcm
  /\ (forall i d, (i < channels * samples)%nat ->
                  (i < List.length pcm)%nat -> nth i pcm' d = 0)
  /\ (forall i d, (channels * samples <= i)%nat ->
                  nth i pcm' d = nth i pcm d)
  /\ advanced = mul (mul dt ptch) (of_Z (Z.of_nat samples)).
Proof.
  unfold build_silence.
  destruct (zero_fill_spec pcm (channels * samples)) as (L & Z0 & K).
  repeat split; assumption.
Qed.

(** *** The dither generator *)

Lemma land_le_l c x : 0 <= c -> 0 <= Z.land x c <= c.
Proof.
  intros Hc. split; [apply Z.land_nonneg; right; exact Hc|].
  rewrite Z.land_comm.
  pose proof (Z.sub_land_same_l c x) as H.
  assert (0 <= Z.land c (Z.lnot x)) by (apply Z.land_nonneg; left; exact Hc).
  lia.
Qed.

Lemma lor_le_add a b : 0 <= a -> 0 <= b -> 0 <= Z.lor a b <= a + b.
Proof.
  intros Ha Hb. split; [apply Z.lor_nonneg; split; assumption|].
  pose proof (Z.add_lor_land a b).
  assert (0 <= Z.land a b) by (apply Z.land_nonneg; left; exact Ha).
  lia.
Qed.

Lemma drawn_bits_range x : 0 <= x -> 0 <= drawn_bits x < 4096.
Proof.
  intros Hx. unfold drawn_bits.
  pose proof (land_le_l 0x0000000f x ltac:(lia)) as H1.
  pose proof (land_le_l 0x000f0000 x ltac:(lia)) as H2.
  pose proof (land_le_l 0x0f000000 x ltac:(lia)) as H3.
  rewrite !Z.shiftr_div_pow2 by lia.
  assert (0 <= Z.land x 0x000f0000 / 2 ^ 12 <= 240).
  { split; [apply Z.div_pos; lia|].
    change 240 with (0x000f0000 / 2 ^ 12). apply Z.div_le_mono; lia. }
  assert (0 <= Z.land x 0x0f000000 / 2 ^ 16 <= 3840).
  { split; [apply Z.div_pos; lia|].
    change 3840 with (0x0f000000 / 2 ^ 16). apply Z.div_le_mono; lia. }
  pose proof (lor_le_add (Z.land x 15) (Z.land x 0x000f0000 / 2 ^ 12)
                         ltac:(lia) ltac:(lia)).
  pose proof (lor_le_add
                (Z.lor (Z.land x 15) (Z.land x 0x000f0000 / 2 ^ 12))
                (Z.land x 0x0f000000 / 2 ^ 16) ltac:(lia) ltac:(lia)).
  lia.
Qed.

Lemma lfsr_step_eq x :
  lfsr_step x
  = 2 * (x mod 2 ^ 31)
    + Z.land (Z.lxor (Z.lxor (Z.lxor x (Z.shiftr x 1)) (Z.shiftr x 21))
                     (Z.shiftr x 31)) 1
  /\ 0 <= Z.land (Z.lxor (Z.lxor (Z.lxor x (Z.shiftr x 1)) (Z.shiftr x 21))
                         (Z.shiftr x 31)) 1 < 2.
Proof.
  unfold lfsr_step, dither. cbn [fst].
  set (bit := Z.land _ 1).
  assert (Hbit : 0 <= bit < 2).
  { subst bit. change 1 with (Z.ones 1). rewrite Z.land_ones by lia.
    apply Z.mod_pos_bound. lia. }
  split; [|exact Hbit].
  unfold uint_wrap. rewrite Z.shiftl_mul_pow2 by lia.
  change (2 ^ 32) with (2 ^ 31 * 2 ^ 1).
  rewrite Z.mul_mod_distr_r by lia.
  set (w := x mod 2 ^ 31 * 2 ^ 1).
  assert (Hw : Z.land w bit = 0).
  { assert (C : bit = 0 \/ bit = 1) by lia. destruct C as [-> | ->].
    - apply Z.land_0_r.
    - change 1 with (Z.ones 1). rewrite Z.land_ones by lia.
      subst w. apply Z.mod_mul. lia. }
  pose proof (Z.add_lor_land w bit). subst w. lia.
Qed.

Lemma lfsr_step_nonneg x : 0 <= lfsr_step x < 2 ^ 32.
Proof.
  destruct (lfsr_step_eq x) as [E Hbit].
  pose proof (Z.mod_pos_bound x (2 ^ 31) ltac:(lia)). lia.
Qed.

Lemma lfsr_step_nonzero x :
  0 <= x < 2 ^ 32 -> x <> 0 -> lfsr_step x <> 0.
Proof.
  intros Hx. destruct (lfsr_step_eq x) as [E Hbit].
  pose proof (Z.mod_pos_bound x (2 ^ 31) ltac:(lia)) as Hm.
  intros Hnz Hz. rewrite Hz in E.
  assert (Hx31 : x mod 2 ^ 31 = 0) by lia.
  assert (Hb0 : Z.land (Z.lxor (Z.lxor (Z.lxor x (Z.shiftr x 1))
                                       (Z.shiftr x 21)) (Z.shiftr x 31)) 1
                = 0) by lia.
  assert (Hx' : x = 2 ^ 31).
  { pose proof (Z.div_mod x (2 ^ 31) ltac:(lia)) as Hd.
    assert (0 <= x / 2 ^ 31 < 2).
    { split; [apply Z.div_pos; lia|].
      apply Z.div_lt_upper_bound; lia. }
    assert (C : x / 2 ^ 31 = 0 \/ x / 2 ^ 31 = 1) by lia.
    destruct C as [C|C]; rewrite C in Hd; lia. }
  subst x. vm_compute in Hb0. discriminate Hb0.
Qed.

(** The shift register of [dither] stays a 32-bit value, and once it is
    not zero it never becomes zero: the generator cannot fall into the
    state it would not leave. *)
Theorem dither_register_invariant x :
  0 <= x < 2 ^ 32 ->
  0 <= lfsr_step x < 2 ^ 32 /\ (x <> 0 -> lfsr_step x <> 0).
Proof.
  intros Hx. split.
  - apply lfsr_step_nonneg.
  - apply lfsr_step_nonzero. exact Hx.
Qed.

Lemma noise_table :
  forallb (fun n => within_half (noise_of (Z.of_nat n))) (seq 0 4096) = true.
Proof. vm_compute. reflexivity. Qed.

Lemma noise_of_within_half v : 0 <= v < 4096 -> within_half (noise_of v) = true.
Proof.
  intros Hv. pose proof noise_table as H.
  rewrite forallb_forall in H.
  specialize (H (Z.to_nat v)). rewrite Z2Nat.id in H by lia.
  apply H. apply in_seq. lia.
Qed.

(** The value that [dither] returns is at least -0.5 and below 0.5, for
    every state of its 32-bit register, as its comment says; its
    integer part is 0. *)
Theorem dither_between_halves x :
  0 <= x < 2 ^ 32 ->
  snd (dither x) = noise_of (drawn_bits (lfsr_step x))
  /\ SFleb (SFopp half) (snd (dither x)) = true
  /\ SFltb (snd (dither x)) half = true
  /\ trunc (snd (dither x)) = Some 0.
Proof.
  intros Hx.
  assert (E : snd (dither x) = noise_of (drawn_bits (lfsr_step x)))
    by reflexivity.
  split; [exact E|]. rewrite E.
  pose proof (lfsr_step_nonneg x) as Hr.
  pose proof (drawn_bits_range (lfsr_step x) ltac:(lia)) as Hv.
  pose proof (noise_of_within_half _ Hv) as H.
  unfold within_half in H.
  apply andb_prop in H. destruct H as [H Ht].
  apply andb_prop in H. destruct H as [Hlo Hhi].
  repeat split; try assumption.
  destruct (trunc (noise_of (drawn_bits (lfsr_step x)))) as [[| |]|];
    try discriminate. reflexivity.
Qed.

(** *** The clamp before the store *)

Lemma short_wrap_range z : SHRT_MIN <= short_wrap z <= SHRT_MAX.
Proof.
  unfold short_wrap, SHRT_MIN, SHRT_MAX.
  pose proof (Z.mod_pos_bound (z + 2 ^ 15) (2 ^ 16) ltac:(lia)). lia.
Qed.

Lemma cast_short_range cast v :
  SHRT_MIN <= cast_short cast v <= SHRT_MAX.
Proof.
  unfold cast_short.
  destruct (trunc v) as [z|]; [|apply short_wrap_range].
  destruct ((SHRT_MIN <=? z) && (z <=? SHRT_MAX)) eqn:E;
    [|apply short_wrap_range].
  apply andb_prop in E. destruct E as [E1 E2].
  apply Z.leb_le in E1. apply Z.leb_le in E2. lia.
Qed.

Lemma clamp_is_short cast v : is_short (clamp cast v).
Proof.
  unfold is_short, clamp.
  destruct (gtb v (of_Z SHRT_MAX)); [unfold SHRT_MIN, SHRT_MAX; lia|].
  destruct (ltb v (of_Z SHRT_MIN)); [unfold SHRT_MIN, SHRT_MAX; lia|].
  apply cast_short_range.
Qed.

Lemma canonical_digits m e :
  bounded prec emax m e = true -> Zpos m < 2 ^ 53.
Proof.
  unfold bounded, canonical_mantissa, fexp, emin, prec, emax.
  intros H. apply andb_prop in H. destruct H as [H _].
  apply Z.eqb_eq in H.
  assert (Hd : Zpos (digits2_pos m) <= 53) by lia.
  rewrite digits2_pos_size in Hd.
  pose proof (Pos.size_gt m) as Hs.
  assert (Zpos m < Zpos (2 ^ Pos.size m)) by (apply Pos2Z.pos_lt_pos; exact Hs).
  rewrite Pos2Z.inj_pow in H0.
  assert (2 ^ Zpos (Pos.size m) <= 2 ^ 53)
    by (apply Z.pow_le_mono_r; lia).
  lia.
Qed.

Lemma compare_cont_Z p q :
  Pos.compare_cont Eq p q = (Zpos p ?= Zpos q).
Proof. reflexivity. Qed.

Lemma shiftl_small m e k :
  Zpos m < 2 ^ 53 -> e <= - (53 - k) -> 0 <= k <= 53 ->
  0 <= Z.shiftl (Zpos m) e < 2 ^ k.
Proof.
  intros Hm He Hk. rewrite Z.shiftl_div_pow2 by lia.
  split; [apply Z.div_pos; lia|].
  apply Z.div_lt_upper_bound; [lia|].
  rewrite <- Z.pow_add_r by lia.
  assert (2 ^ 53 <= 2 ^ (- e + k)) by (apply Z.pow_le_mono_r; lia). lia.
Qed.

(** For every number that is not a NaN, the clamp needs no undefined
    conversion: the value stored is the same whatever the processor
    does with one.  ([valid_binary] holds of every binary64 number in
    canonical form, as the arithmetic produces them.) *)
Theorem clamp_defined cast1 cast2 v :
  valid_binary prec emax v = true ->
  v <> S754_nan ->
  clamp cast1 v = clamp cast2 v.
Proof.
  intros Hv Hn.
  destruct v as [s|[|]| |[|] m e];
    [reflexivity|reflexivity|reflexivity|contradiction| |].
  - (* negative *)
    unfold clamp.
    destruct (gtb (S754_finite true m e) (of_Z SHRT_MAX)) eqn:Hgt;
      [reflexivity|].
    destruct (ltb (S754_finite true m e) (of_Z SHRT_MIN)) eqn:Hlt;
      [reflexivity|].
    unfold cast_short.
    cbn [valid_binary] in Hv. pose proof (canonical_digits m e Hv) as Hm.
    cbn [trunc cond_Zopp].
    assert (Hr : 0 <= Z.shiftl (Zpos m) e <= 32768).
    { revert Hlt. unfold ltb, SFltb.
      change (of_Z SHRT_MIN) with (S754_finite true 4503599627370496 (-37)).
      cbn [SFcompare].
      destruct (Z.compare_spec e (-37)) as [He|He|He].
      - subst e. rewrite compare_cont_Z.
        destruct (Z.compare_spec (Zpos m) 4503599627370496) as [Hc|Hc|Hc];
          cbn [CompOpp]; try discriminate; intros _;
          rewrite Z.shiftl_div_pow2 by lia;
          (split; [apply Z.div_pos; lia|]);
          apply Z.div_le_upper_bound; lia.
      - intros _. pose proof (shiftl_small m e 15 Hm ltac:(lia) ltac:(lia)).
        change (2 ^ 15) with 32768 in H. lia.
      - discriminate. }
    replace ((SHRT_MIN <=? - Z.shiftl (Zpos m) e)
             && (- Z.shiftl (Zpos m) e <=? SHRT_MAX)) with true;
      [reflexivity|].
    symmetry. apply andb_true_intro. unfold SHRT_MIN, SHRT_MAX.
    split; apply Z.leb_le; lia.
  - (* positive *)
    unfold clamp.
    destruct (gtb (S754_finite false m e) (of_Z SHRT_MAX)) eqn:Hgt;
      [reflexivity|].
    destruct (ltb (S754_finite false m e) (of_Z SHRT_MIN)) eqn:Hlt;
      [reflexivity|].
    unfold cast_short.
    cbn [valid_binary] in Hv. pose proof (canonical_digits m e Hv) as Hm.
    cbn [trunc cond_Zopp].
    assert (Hr : 0 <= Z.shiftl (Zpos m) e <= 32767).
    { revert Hgt. unfold gtb, SFltb.
      change (of_Z SHRT_MAX) with (S754_finite false 9006924376834048 (-38)).
      cbn [SFcompare].
      destruct (Z.compare_spec (-38) e) as [He|He|He].
      - subst e. rewrite compare_cont_Z.
        destruct (Z.compare_spec 9006924376834048 (Zpos m)) as [Hc|Hc|Hc];
          try discriminate; intros _;
          rewrite Z.shiftl_div_pow2 by lia;
          (split; [apply Z.div_pos; lia|]);
          apply Z.div_le_upper_bound; lia.
      - discriminate.
      - intros _. pose proof (shiftl_small m e 14 Hm ltac:(lia) ltac:(lia)).
        change (2 ^ 14) with 16384 in H. lia. }
    replace ((SHRT_MIN <=? Z.shiftl (Zpos m) e)
             && (Z.shiftl (Zpos m) e <=? SHRT_MAX)) with true;
      [reflexivity|].
    symmetry. apply andb_true_intro. unfold SHRT_MIN, SHRT_MAX.
    split; apply Z.leb_le; lia.
Qed.

Lemma clamp_defined_witness :
  let v := mul half (of_Z 12345) in
  (valid_binary prec emax v = true /\ v <> S754_nan)
  /\ clamp cast_saturating v = clamp (fun _ => 0) v.
Proof.
  cbv zeta.
  assert (H : valid_binary prec emax (mul half (of_Z 12345)) = true
              /\ mul half (of_Z 12345) <> S754_nan)
    by (split; [reflexivity|vm_compute; discriminate]).
  split; [exact H|]. destruct H as [H1 H2].
  apply (clamp_defined cast_saturating (fun _ => 0)
                       (mul half (of_Z 12345)) H1 H2).
Defined.

Section Control.

Variable queue : Type.
Local Abbreviation player := (player queue).

(** [retarget] stops on its assertion exactly when a recalibration is
    pending and the target position is [TARGET_UNKNOWN] (plus
    infinity); in every other state it returns. *)
Theorem retarget_fails_iff (pl : player) :
  retarget pl = None
  <-> recalibrate pl = true /\ target_position pl = TARGET_UNKNOWN.
Proof.
  unfold retarget, calibrate_to_timecode_position.
  destruct (recalibrate pl).
  - destruct (SFeqb (target_position pl) TARGET_UNKNOWN) eqn:E.
    + apply eqb_unknown in E. split; [intros _; split; [reflexivity|exact E]|].
      reflexivity.
    + split.
      * cbv zeta.
        repeat match goal with
               | |- context [if ?c then _ else _] => destruct c
               end; discriminate.
      * intros [_ Ht]. apply eqb_unknown in Ht. congruence.
  - split.
    + cbv zeta.
      repeat match goal with
             | |- context [if ?c then _ else _] => destruct c
             end; discriminate.
    + intros [H _]. discriminate H.
Qed.

(** What [retarget] does once the recalibration is out of the way. *)
Lemma retarget_steady (pl : player) :
  recalibrate pl = false ->
  retarget pl
  = let diff := sub (position pl) (target_position pl) in
    let pl1 := set_last_difference diff pl in
    Some (if gtb (fabs diff) SKIP_THRESHOLD
          then set_position (target_position pl) pl1
          else if gtb (fabs (pitch pl)) SYNC_PITCH
               then set_sync_pitch
                      (div (pitch pl) (add (div diff SYNC_TIME) (pitch pl)))
                      pl1
               else pl1).
Proof.
  intros Hr. unfold retarget. rewrite Hr. cbv zeta.
  cbn [position target_position pitch set_last_difference].
  destruct (gtb (fabs (sub (position pl) (target_position pl)))
                SKIP_THRESHOLD); [reflexivity|].
  destruct (gtb (fabs (pitch pl)) SYNC_PITCH); reflexivity.
Qed.

Lemma retarget_calibrating (pl : player) :
  recalibrate pl = true ->
  target_position pl <> TARGET_UNKNOWN ->
  retarget pl
  = retarget
      (set_recalibrate false
         (set_position (target_position pl)
            (set_offset (add (offset pl)
                             (sub (target_position pl) (position pl))) pl))).
Proof.
  intros Hr Ht. unfold retarget at 1, calibrate_to_timecode_position.
  rewrite Hr.
  destruct (SFeqb (target_position pl) TARGET_UNKNOWN) eqn:E;
    [apply eqb_unknown in E; contradiction|].
  unfold retarget. reflexivity.
Qed.

Lemma retarget_clears_recalibrate (pl pl' : player) :
  retarget pl = Some pl' -> recalibrate pl' = false.
Proof.
  destruct (recalibrate pl) eqn:Hr.
  - destruct (SFeqb (target_position pl) TARGET_UNKNOWN) eqn:E.
    + unfold retarget, calibrate_to_timecode_position. rewrite Hr, E.
      discriminate.
    + rewrite retarget_calibrating;
        [|exact Hr|intros H; apply eqb_unknown in H; congruence].
      rewrite retarget_steady by reflexivity. cbv zeta.
      intros [= <-].
      repeat match goal with
             | |- context [if ?c then _ else _] => destruct c
             end; reflexivity.
  - rewrite retarget_steady by exact Hr. cbv zeta. intros [= <-].
    repeat match goal with
           | |- context [if ?c then _ else _] => destruct c
           end; assumption.
Qed.

(** [retarget] writes the position, the offset, [last_difference],
    [sync_pitch] and [recalibrate] only: it leaves the target position,
    the pitch, the track, the lock, the queue, the timestamp and the
    other fields as they were, and it always returns with [recalibrate]
    cleared. *)
Theorem retarget_frame (pl pl' : player) :
  retarget pl = Some pl' ->
  recalibrate pl' = false
  /\ target_position pl' = target_position pl
  /\ pitch pl' = pitch pl
  /\ pl_track pl' = pl_track pl
  /\ lock pl' = lock pl
  /\ scqueue pl' = scqueue pl
  /\ timestamp pl' = timestamp pl
  /\ last_position pl' = last_position pl
  /\ sample_dt pl' = sample_dt pl
  /\ volume pl' = volume pl
  /\ nominal_pitch pl' = nominal_pitch pl
  /\ samplesSoFar pl' = samplesSoFar pl
  /\ timecode_control pl' = timecode_control pl.
Proof.
  destruct (recalibrate pl) eqn:Hr.
  - destruct (SFeqb (target_position pl) TARGET_UNKNOWN) eqn:E.
    + unfold retarget, calibrate_to_timecode_position. rewrite Hr, E.
      discriminate.
    + rewrite retarget_calibrating;
        [|exact Hr|intros H; apply eqb_unknown in H; congruence].
      rewrite retarget_steady by reflexivity. cbv zeta.
      intros [= <-].
      repeat match goal with
             | |- context [if ?c then _ else _] => destruct c
             end; repeat split.
  - rewrite retarget_steady by exact Hr. cbv zeta. intros [= <-].
    repeat match goal with
           | |- context [if ?c then _ else _] => destruct c
           end; repeat split; assumption.
Qed.

(** After [retarget] has returned, the position is no further than the
    skip threshold from the target position, as [retarget] measures
    it. *)
Lemma retarget_settles (pl pl' : player) :
  retarget pl = Some pl' ->
  gtb (fabs (sub (position pl') (target_position pl'))) SKIP_THRESHOLD
  = false.
Proof.
  assert (Hsteady : forall p p' : player,
             recalibrate p = false -> retarget p = Some p' ->
             gtb (fabs (sub (position p') (target_position p')))
                 SKIP_THRESHOLD = false).
  { intros p p' Hr. rewrite retarget_steady by exact Hr. cbv zeta.
    intros [= <-].
    destruct (gtb (fabs (sub (position p) (target_position p)))
                  SKIP_THRESHOLD) eqn:E.
    - cbn [position target_position set_position set_last_difference].
      apply sub_diag_near.
    - destruct (gtb (fabs (pitch p)) SYNC_PITCH); exact E. }
  destruct (recalibrate pl) eqn:Hr.
  - destruct (SFeqb (target_position pl) TARGET_UNKNOWN) eqn:E.
    + unfold retarget, calibrate_to_timecode_position. rewrite Hr, E.
      discriminate.
    + rewrite retarget_calibrating;
        [|exact Hr|intros H; apply eqb_unknown in H; congruence].
      apply Hsteady. reflexivity.
  - apply Hsteady. exact Hr.
Qed.

(** A second [retarget] with no new input moves nothing: after
    [retarget] has returned, calling it again returns too and keeps
    the position and the offset. *)
Theorem retarget_twice (pl pl1 : player) :
  retarget pl = Some pl1 ->
  exists pl2,
    retarget pl1 = Some pl2
    /\ position pl2 = position pl1
    /\ offset pl2 = offset pl1.
Proof.
  intros H.
  pose proof (retarget_settles pl pl1 H) as Hn.
  pose proof (retarget_clears_recalibrate pl pl1 H) as Hr.
  rewrite retarget_steady by exact Hr. cbv zeta. rewrite Hn.
  eexists. split; [reflexivity|].
  destruct (gtb (fabs (pitch pl1)) SYNC_PITCH); split; reflexivity.
Qed.

(** With a recalibration pending and a target position that is a zero
    or a finite number, [retarget] puts the position on the target,
    moves the offset by the same step, records a difference of zero
    and clears [recalibrate]. *)
Theorem retarget_recalibrates (pl : player) :
  recalibrate pl = true ->
  finite (target_position pl) = true ->
  exists pl',
    retarget pl = Some pl'
    /\ position pl' = target_position pl
    /\ offset pl'
       = add (offset pl) (sub (target_position pl) (position pl))
    /\ last_difference pl' = zero
    /\ recalibrate pl' = false.
Proof.
  intros Hr Hf.
  rewrite retarget_calibrating;
    [|exact Hr|intros E; rewrite E in Hf; discriminate].
  rewrite retarget_steady by reflexivity. cbv zeta.
  cbn [position target_position pitch offset set_recalibrate set_position
       set_offset].
  rewrite sub_diag_finite by exact Hf.
  change (gtb (fabs zero) SKIP_THRESHOLD) with false. cbv iota.
  eexists. split; [reflexivity|].
  destruct (gtb (fabs (pitch pl)) SYNC_PITCH); repeat split.
Qed.

(** Timecode control: the flag takes the value asked for; [recalibrate]
    is raised on the change from off to on and otherwise kept, so that
    switching off, or switching on what is on, never asks for a
    recalibration; and toggling is switching to the opposite state,
    which it returns. *)
Theorem timecode_control_edges (pl : player) on :
  timecode_control (player_set_timecode_control pl on) = on
  /\ recalibrate (player_set_timecode_control pl on)
     = recalibrate pl || (on && negb (timecode_control pl))
  /\ player_toggle_timecode_control pl
     = (player_set_timecode_control pl (negb (timecode_control pl)),
        negb (timecode_control pl))
  /\ timecode_control
       (fst (player_toggle_timecode_control
               (fst (player_toggle_timecode_control pl))))
     = timecode_control pl.
Proof.
  unfold player_set_timecode_control, player_toggle_timecode_control.
  destruct pl as [l dt t p tp o ld pi sp v np ts lp n r tc q].
  destruct on, tc, r; cbn; repeat split.
Qed.

(** [player_recue] and [player_seek_to] write the offset only.  After
    [player_recue] the elapsed time is zero, for every position that is
    a zero or a finite number; and seeking to 0.0 is recueing. *)
Theorem recue_zeroes_elapsed (pl : player) :
  (finite (position pl) = true ->
   player_get_elapsed (player_recue pl) = zero)
  /\ player_seek_to pl zero = player_recue pl
  /\ (forall seconds,
         player_get_position (player_seek_to pl seconds)
         = player_get_position pl
         /\ player_seek_to pl seconds
            = set_offset (offset (player_seek_to pl seconds)) pl).
Proof.
  split; [|split].
  - intros Hf. unfold player_get_elapsed, player_recue.
    cbn [position offset set_offset]. apply sub_diag_finite. exact Hf.
  - unfold player_seek_to, player_recue. rewrite sub_zero_r. reflexivity.
  - intros seconds. split; reflexivity.
Qed.

End Control.

(** *** The block rendered by [build_pcm] *)

Lemma length_store pcm : forall n v,
  List.length (store pcm n v) = List.length pcm.
Proof.
  induction pcm as [|w rest IH]; intros [|n] v; cbn; try reflexivity.
  rewrite IH. reflexivity.
Qed.

Lemma nth_store_other pcm : forall n i v d,
  n <> i -> nth i (store pcm n v) d = nth i pcm d.
Proof.
  induction pcm as [|w rest IH]; intros [|n] [|i] v d Hn; cbn;
    try reflexivity; try contradiction.
  apply IH. intros ->. apply Hn. reflexivity.
Qed.

Lemma Forall_store (P : Z -> Prop) pcm : forall n v,
  Forall P pcm -> P v -> Forall P (store pcm n v).
Proof.
  induction pcm as [|w rest IH]; intros [|n] v Hl Hv; cbn.
  - constructor.
  - constructor.
  - inversion Hl; subst. constructor; assumption.
  - inversion Hl; subst. constructor; [assumption|]. apply IH; assumption.
Qed.

Section Block.

Variable cast_undefined : double -> Z.
Variable queue : Type.
Variable InterpolateQueue :
  queue -> double -> queue * double * option double.
Variable PLAYER_CHANNELS : nat.
Variable counter_wrap : Z -> Z.

Local Abbreviation player := (player queue).
Local Abbreviation advance := (advance InterpolateQueue counter_wrap).
Local Abbreviation render_sample :=
  (render_sample cast_undefined InterpolateQueue PLAYER_CHANNELS
                 counter_wrap).
Local Abbreviation build_pcm_from :=
  (build_pcm_from cast_undefined InterpolateQueue PLAYER_CHANNELS
                  counter_wrap).
Local Abbreviation build_pcm :=
  (build_pcm cast_undefined InterpolateQueue PLAYER_CHANNELS
             counter_wrap).
Local Abbreviation queue_silent := (queue_silent InterpolateQueue).
Local Abbreviation queue_feeds := (queue_feeds InterpolateQueue).

Lemma written_refl lo hi out : written lo hi 0 out out.
Proof. repeat split; auto. Qed.

Lemma written_trans lo1 hi1 k1 lo2 hi2 k2 lo hi a b c :
  written lo1 hi1 k1 a b -> written lo2 hi2 k2 b c ->
  (lo <= lo1)%nat -> (lo <= lo2)%nat ->
  (hi1 <= hi)%nat -> (hi2 <= hi)%nat ->
  written lo hi (k2 + k1) a c.
Proof.
  intros (L1 & N1 & F1 & X1) (L2 & N2 & F2 & X2) ? ? ? ?.
  repeat split.
  - congruence.
  - intros i d Hi. rewrite N2 by lia. apply N1. lia.
  - auto.
  - rewrite X2, X1. symmetry. apply Nat.iter_add.
Qed.

Lemma render_channel_written t sa f s out c :
  written (2 * s + c) (2 * s + c + 1) 1 out
          (render_channel cast_undefined t sa f s out c).
Proof.
  destruct out as [pcm x]. unfold render_channel.
  destruct (dither x) as [x' noise] eqn:E.
  assert (Hx : x' = lfsr_step x) by (unfold lfsr_step; rewrite E; reflexivity).
  cbn [fst snd]. repeat split.
  - apply length_store.
  - intros i d Hi. apply nth_store_other. lia.
  - intros Hf. apply Forall_store; [exact Hf|]. apply clamp_is_short.
  - exact Hx.
Qed.

Lemma render_channels_written t sa f s n : forall c out,
  written (2 * s + c) (2 * s + c + n) n out
          (fold_left (render_channel cast_undefined t sa f s)
                     (seq c n) out).
Proof.
  induction n as [|n IH]; intros c out.
  - apply written_refl.
  - cbn [seq fold_left].
    pose proof (render_channel_written t sa f s out c) as H1.
    pose proof (IH (S c) (render_channel cast_undefined t sa f s out c))
      as H2.
    replace (S n) with (n + 1)%nat by lia.
    eapply written_trans; [exact H1|exact H2|lia..].
Qed.

Lemma render_sample_written s (pl : player) out :
  written (2 * s) (2 * s + PLAYER_CHANNELS) PLAYER_CHANNELS out
          (snd (render_sample s (pl, out))).
Proof.
  unfold Player.render_sample.
  destruct (locate cast_undefined (sample_coordinate (advance pl)))
    as [sa f].
  cbn [snd].
  pose proof (render_channels_written (pl_track (advance pl)) sa f s
                                      PLAYER_CHANNELS 0 out) as H.
  rewrite !Nat.add_0_r in H. exact H.
Qed.

Lemma build_pcm_from_written n : forall s (pl : player) out,
  written (2 * s) (2 * (s + n) + PLAYER_CHANNELS - 2)
          (n * PLAYER_CHANNELS) out
          (snd (build_pcm_from s n (pl, out))).
Proof.
  induction n as [|n IH]; intros s pl out.
  - apply written_refl.
  - cbn [Player.build_pcm_from].
    pose proof (render_sample_written s pl out) as H1.
    pose proof (render_sample_player cast_undefined queue InterpolateQueue
                  PLAYER_CHANNELS counter_wrap s pl out) as Hp.
    destruct (render_sample s (pl, out)) as [pl1 out1].
    cbn [fst snd] in *.
    pose proof (IH (S s) pl1 out1) as H2.
    replace (S n * PLAYER_CHANNELS)%nat
      with (n * PLAYER_CHANNELS + PLAYER_CHANNELS)%nat by lia.
    eapply written_trans; [exact H1|exact H2|lia..].
Qed.

(** [build_pcm] never lengthens or shortens the output buffer, writes
    no slot from [2 * samples + PLAYER_CHANNELS - 2] on (with two
    channels: none from [2 * samples] on), and stores 16-bit values
    only: a buffer of 16-bit samples stays one. *)
Theorem build_pcm_buffer (pl : player) out samples :
  let pcm' := fst (snd (build_pcm pl out samples)) in
  List.length pcm' = List.length (fst out)
  /\ (forall i d, (2 * samples + PLAYER_CHANNELS - 2 <= i)%nat ->
                  nth i pcm' d = nth i (fst out) d)
  /\ (Forall is_short (fst out) -> Forall is_short pcm').
Proof.
  destruct (build_pcm_from_written samples 0 pl out) as (L & N & F & _).
  cbv zeta. unfold Player.build_pcm. repeat split.
  - exact L.
  - intros i d Hi. apply N. right. cbn [Nat.add]. exact Hi.
  - exact F.
Qed.

(** Rendering [samples] output samples draws the dither
    [samples * PLAYER_CHANNELS] times, whatever the track, the position
    and the queue; the register stays a nonzero 32-bit value when it
    was one. *)
Theorem build_pcm_dither_draws (pl : player) out samples :
  let x' := snd (snd (build_pcm pl out samples)) in
  x' = Nat.iter (samples * PLAYER_CHANNELS) lfsr_step (snd out)
  /\ (0 < snd out < 2 ^ 32 -> 0 < x' < 2 ^ 32).
Proof.
  destruct (build_pcm_from_written samples 0 pl out) as (_ & _ & _ & X).
  cbv zeta. unfold Player.build_pcm. split; [exact X|].
  rewrite X. generalize (samples * PLAYER_CHANNELS)%nat as k.
  intros k Hx. induction k as [|k IH]; [exact Hx|].
  change (Nat.iter (S k) lfsr_step (snd out))
    with (lfsr_step (Nat.iter k lfsr_step (snd out))).
  pose proof (lfsr_step_nonneg (Nat.iter k lfsr_step (snd out))) as Hr.
  assert (lfsr_step (Nat.iter k lfsr_step (snd out)) <> 0)
    by (apply lfsr_step_nonzero; lia).
  lia.
Qed.

Lemma advance_frame (pl : player) :
  pl_track (advance pl) = pl_track pl
  /\ lock (advance pl) = lock pl
  /\ sample_dt (advance pl) = sample_dt pl
  /\ offset (advance pl) = offset pl
  /\ target_position (advance pl) = target_position pl
  /\ last_difference (advance pl) = last_difference pl
  /\ sync_pitch (advance pl) = sync_pitch pl
  /\ volume (advance pl) = volume pl
  /\ nominal_pitch (advance pl) = nominal_pitch pl
  /\ recalibrate (advance pl) = recalibrate pl
  /\ timecode_control (advance pl) = timecode_control pl.
Proof.
  unfold Player.advance.
  destruct (InterpolateQueue (scqueue pl) (timestamp pl))
    as [[q ts] [target|]]; repeat split.
Qed.

(** Rendering never rebinds the track and never touches the lock, the
    offset, the target position, the sync pitch, the volume, the
    nominal pitch or the timecode flags: of the player it writes the
    position, the pitch, the last position, the timestamp, the sample
    counter and the queue only. *)
Theorem build_pcm_frame (pl : player) out samples :
  let pl' := fst (build_pcm pl out samples) in
  pl_track pl' = pl_track pl
  /\ lock pl' = lock pl
  /\ sample_dt pl' = sample_dt pl
  /\ offset pl' = offset pl
  /\ target_position pl' = target_position pl
  /\ last_difference pl' = last_difference pl
  /\ sync_pitch pl' = sync_pitch pl
  /\ volume pl' = volume pl
  /\ nominal_pitch pl' = nominal_pitch pl
  /\ recalibrate pl' = recalibrate pl
  /\ timecode_control pl' = timecode_control pl.
Proof.
  cbv zeta. unfold Player.build_pcm. generalize 0%nat as s.
  revert pl out. induction samples as [|n IH]; intros pl out s.
  - repeat split.
  - cbn [Player.build_pcm_from].
    pose proof (render_sample_player cast_undefined queue InterpolateQueue
                  PLAYER_CHANNELS counter_wrap s pl out) as Hp.
    destruct (render_sample s (pl, out)) as [pl1 out1].
    cbn [fst] in Hp. subst pl1.
    destruct (advance_frame pl)
      as (A1 & A2 & A3 & A4 & A5 & A6 & A7 & A8 & A9 & A10 & A11).
    destruct (IH (advance pl) out1 (S s))
      as (B1 & B2 & B3 & B4 & B5 & B6 & B7 & B8 & B9 & B10 & B11).
    repeat split; congruence.
Qed.

Lemma add_zero_keeps p s :
  p <> S754_zero true -> add p (S754_zero s) = p.
Proof.
  intros Hp. destruct p as [[|]|[|]| |sp m e], s;
    try reflexivity; contradiction Hp; reflexivity.
Qed.

(** A deck at rest does not drift: with a pitch of zero and a queue
    that yields nothing, rendering any number of samples leaves the
    position where it was (for every position but the negative zero,
    which becomes the positive one). *)
Theorem at_rest_no_drift (pl : player) out N s :
  pitch pl = S754_zero s ->
  position pl <> S754_zero true ->
  queue_silent N (scqueue pl) (timestamp pl) ->
  position (fst (build_pcm pl out N)) = position pl
  /\ pitch (fst (build_pcm pl out N)) = pitch pl.
Proof.
  intros Hp Hpos Hq.
  destruct (build_pcm_from_silent cast_undefined queue InterpolateQueue
              PLAYER_CHANNELS counter_wrap N 0 pl out Hq) as [E1 E2].
  unfold Player.build_pcm. split; [|exact E2].
  rewrite E1, Hp. clear E1 E2 Hq.
  induction N as [|N IH]; [reflexivity|].
  cbn [Nat.iter nat_rect]. unfold Nat.iter in IH. rewrite IH.
  apply add_zero_keeps. exact Hpos.
Qed.

Lemma advance_fed (pl : player) q ts target :
  InterpolateQueue (scqueue pl) (timestamp pl) = (q, ts, Some target) ->
  position (advance pl) = target
  /\ pitch (advance pl) = sub target (last_position pl)
  /\ last_position (advance pl) = target
  /\ scqueue (advance pl) = q
  /\ timestamp (advance pl) = add ts (sample_dt pl)
  /\ sample_dt (advance pl) = sample_dt pl.
Proof.
  intros E. unfold Player.advance. rewrite E. repeat split.
Qed.

Lemma build_pcm_from_fed rest : forall a b s (pl : player) out,
  queue_feeds (rest ++ [a; b]) (scqueue pl) (timestamp pl) (sample_dt pl) ->
  let pl' := fst (build_pcm_from s (List.length (rest ++ [a; b])) (pl, out)) in
  position pl' = b /\ pitch pl' = sub b a /\ last_position pl' = b.
Proof.
  induction rest as [|t rest IH]; intros a b s pl out Hq; cbv zeta.
  - cbn [app List.length Player.build_pcm_from].
    cbn [app Player.queue_feeds] in Hq.
    destruct (InterpolateQueue (scqueue pl) (timestamp pl))
      as [[q ts] entry] eqn:E1.
    destruct Hq as [-> Hq].
    destruct (advance_fed pl q ts a E1) as (P1 & _ & L1 & Q1 & T1 & D1).
    pose proof (render_sample_player cast_undefined queue InterpolateQueue
                  PLAYER_CHANNELS counter_wrap s pl out) as Hp.
    destruct (render_sample s (pl, out)) as [pl1 out1].
    cbn [fst] in Hp. subst pl1.
    rewrite <- Q1, <- T1 in Hq.
    destruct (InterpolateQueue (scqueue (advance pl))
                               (timestamp (advance pl)))
      as [[q2 ts2] entry2] eqn:E2.
    destruct Hq as [-> _].
    destruct (advance_fed (advance pl) q2 ts2 b E2) as (P2 & I2 & L2 & _).
    pose proof (render_sample_player cast_undefined queue InterpolateQueue
                  PLAYER_CHANNELS counter_wrap (S s) (advance pl) out1)
      as Hp2.
    destruct (render_sample (S s) (advance pl, out1)) as [pl2 out2].
    cbn [fst] in Hp2. subst pl2. cbn [fst].
    rewrite P2, I2, L2, L1. repeat split.
  - cbn [app List.length Player.build_pcm_from].
    cbn [app Player.queue_feeds] in Hq.
    destruct (InterpolateQueue (scqueue pl) (timestamp pl))
      as [[q ts] entry] eqn:E1.
    destruct Hq as [-> Hq].
    destruct (advance_fed pl q ts t E1) as (_ & _ & _ & Q1 & T1 & D1).
    pose proof (render_sample_player cast_undefined queue InterpolateQueue
                  PLAYER_CHANNELS counter_wrap s pl out) as Hp.
    destruct (render_sample s (pl, out)) as [pl1 out1].
    cbn [fst] in Hp. subst pl1.
    rewrite <- Q1, <- T1, <- D1 in Hq.
    apply (IH a b (S s) (advance pl) out1 Hq).
Qed.

(** When the queue yields an entry for every sample of a block, the
    position after the block is the last entry itself, whatever the
    position and the pitch were before: queued positions override the
    extrapolation; and the pitch is the last entry minus the one before
    it. *)
Theorem queue_overrides_drift (pl : player) out rest a b :
  queue_feeds (rest ++ [a; b]) (scqueue pl) (timestamp pl) (sample_dt pl) ->
  let pl' := fst (build_pcm pl out (List.length (rest ++ [a; b]))) in
  position pl' = b /\ pitch pl' = sub b a /\ last_position pl' = b.
Proof. apply build_pcm_from_fed. Qed.

(** For a negative coordinate with integer part [k] (rounded towards
    zero), the window starts at sample [k - 2] and the fraction is
    measured from sample [k - 1]: one sample lower than for a
    coordinate that is not negative. *)
Theorem locate_negative sample k :
  trunc sample = Some k ->
  ltb sample zero = true ->
  INT_MIN + 2 <= k <= INT_MAX ->
  locate cast_undefined sample = (k - 2, sub sample (of_Z (k - 1))).
Proof.
  intros Hk Hs Hr. unfold INT_MIN, INT_MAX in Hr.
  unfold locate, cast_int. rewrite Hk, Hs.
  replace ((INT_MIN <=? k) && (k <=? INT_MAX)) with true
    by (symmetry; apply andb_true_intro; unfold INT_MIN, INT_MAX;
        split; apply Z.leb_le; lia).
  rewrite !int_wrap_id by
      (rewrite ?int_wrap_id; unfold INT_MIN, INT_MAX; lia).
  f_equal. lia.
Qed.

End Block.

Lemma dither_register_invariant_witness :
  (0 <= dither_seed < 2 ^ 32 /\ dither_seed <> 0)
  /\ 0 <= lfsr_step dither_seed < 2 ^ 32
  /\ lfsr_step dither_seed <> 0.
Proof.
  assert (H : 0 <= dither_seed < 2 ^ 32 /\ dither_seed <> 0)
    by (unfold dither_seed; split; [lia|discriminate]).
  split; [exact H|]. destruct H as [Hr Hz].
  destruct (dither_register_invariant dither_seed Hr) as [H1 H2].
  split; [exact H1|exact (H2 Hz)].
Defined.

Lemma dither_between_halves_witness :
  0 <= dither_seed < 2 ^ 32
  /\ SFleb (SFopp half) (snd (dither dither_seed)) = true
  /\ SFltb (snd (dither dither_seed)) half = true.
Proof.
  assert (H : 0 <= dither_seed < 2 ^ 32) by (unfold dither_seed; lia).
  split; [exact H|].
  destruct (dither_between_halves dither_seed H) as (_ & H1 & H2 & _).
  split; [exact H1|exact H2].
Defined.

Lemma build_pcm_buffer_witness :
  let out := ([1; 2; 3; 4; 5; 6], dither_seed) in
  let pcm' := fst (snd (build_pcm cast_saturating pop_queue 2 uint_wrap
                                  normal_play out 2)) in
  Forall is_short (fst out)
  /\ List.length pcm' = 6%nat
  /\ nth 4 pcm' 0 = 5 /\ nth 5 pcm' 0 = 6
  /\ Forall is_short pcm'.
Proof.
  cbv zeta.
  assert (Hs : Forall is_short [1; 2; 3; 4; 5; 6])
    by (repeat constructor; unfold SHRT_MIN; unfold SHRT_MAX; lia).
  destruct (build_pcm_buffer cast_saturating list_queue pop_queue 2
              uint_wrap normal_play ([1; 2; 3; 4; 5; 6], dither_seed) 2)
    as (L & N & F).
  split; [exact Hs|]. split; [exact L|].
  split; [apply (N 4%nat 0); cbn; lia|].
  split; [apply (N 5%nat 0); cbn; lia|].
  exact (F Hs).
Defined.

Lemma build_pcm_dither_draws_witness :
  0 < dither_seed < 2 ^ 32
  /\ 0 < snd (snd (build_pcm cast_saturating pop_queue 2 uint_wrap
                             normal_play (silence 4) 2)) < 2 ^ 32.
Proof.
  assert (H : 0 < dither_seed < 2 ^ 32) by (unfold dither_seed; lia).
  split; [exact H|].
  exact (proj2 (build_pcm_dither_draws cast_saturating list_queue pop_queue
                  2 uint_wrap normal_play (silence 4) 2) H).
Defined.

Lemma at_rest_no_drift_witness :
  let pl := idle_player (of_Z 1) zero false in
  (pitch pl = S754_zero false /\ position pl <> S754_zero true
   /\ queue_silent pop_queue 5 (scqueue pl) (timestamp pl))
  /\ position (fst (build_pcm cast_saturating pop_queue 2 uint_wrap pl
                              (silence 10) 5)) = position pl.
Proof.
  cbv zeta.
  assert (H : pitch (idle_player (of_Z 1) zero false) = S754_zero false
              /\ position (idle_player (of_Z 1) zero false)
                 <> S754_zero true
              /\ queue_silent pop_queue 5
                   (scqueue (idle_player (of_Z 1) zero false))
                   (timestamp (idle_player (of_Z 1) zero false)))
    by (split; [reflexivity|split; [discriminate|simpl; repeat split]]).
  split; [exact H|]. destruct H as (H1 & H2 & H3).
  exact (proj1 (at_rest_no_drift cast_saturating list_queue pop_queue 2
                  uint_wrap (idle_player (of_Z 1) zero false)
                  (silence 10) 5 false H1 H2 H3)).
Defined.

Lemma queue_overrides_drift_witness :
  let pl := fed_player in
  queue_feeds pop_queue ([of_Z 3] ++ [of_Z 5; of_Z 6])
              (scqueue pl) (timestamp pl) (sample_dt pl)
  /\ position (fst (build_pcm cast_saturating pop_queue 2 uint_wrap pl
                              (silence 6) 3)) = of_Z 6
  /\ pitch (fst (build_pcm cast_saturating pop_queue 2 uint_wrap pl
                           (silence 6) 3)) = sub (of_Z 6) (of_Z 5).
Proof.
  cbv zeta.
  assert (H : queue_feeds pop_queue ([of_Z 3] ++ [of_Z 5; of_Z 6])
                (scqueue fed_player) (timestamp fed_player)
                (sample_dt fed_player))
    by (simpl; repeat split).
  split; [exact H|].
  destruct (queue_overrides_drift cast_saturating list_queue pop_queue 2
              uint_wrap fed_player (silence 6) [of_Z 3] (of_Z 5) (of_Z 6) H)
    as (H1 & H2 & _).
  split; [exact H1|exact H2].
Defined.

Lemma locate_negative_witness :
  let sample := SFopp (div (of_Z 5) (of_Z 2)) in
  (trunc sample = Some (-2) /\ ltb sample zero = true
   /\ INT_MIN + 2 <= -2 <= INT_MAX)
  /\ locate cast_saturating sample = (-4, sub sample (of_Z (-3))).
Proof.
  cbv zeta.
  assert (H : trunc (SFopp (div (of_Z 5) (of_Z 2))) = Some (-2)
              /\ ltb (SFopp (div (of_Z 5) (of_Z 2))) zero = true
              /\ INT_MIN + 2 <= -2 <= INT_MAX)
    by (split; [reflexivity|split;
                             [reflexivity|unfold INT_MIN, INT_MAX; lia]]).
  split; [exact H|]. destruct H as (H1 & H2 & H3).
  exact (locate_negative cast_saturating _ (-2) H1 H2 H3).
Defined.

Lemma retarget_fails_iff_witness :
  let pl := set_recalibrate true unknown_target_player in
  (recalibrate pl = true /\ target_position pl = TARGET_UNKNOWN)
  /\ retarget pl = None.
Proof.
  cbv zeta.
  assert (H : recalibrate (set_recalibrate true unknown_target_player) = true
              /\ target_position (set_recalibrate true unknown_target_player)
                 = TARGET_UNKNOWN) by (split; reflexivity).
  split; [exact H|].
  exact (proj2 (retarget_fails_iff list_queue
                  (set_recalibrate true unknown_target_player)) H).
Defined.

Lemma retarget_recalibrates_witness :
  let pl := set_recalibrate true (idle_player (of_Z 1) tenth false) in
  (recalibrate pl = true /\ finite (target_position pl) = true)
  /\ exists pl',
      retarget pl = Some pl'
      /\ position pl' = target_position pl
      /\ offset pl'
         = add (offset pl) (sub (target_position pl) (position pl))
      /\ last_difference pl' = zero
      /\ recalibrate pl' = false.
Proof.
  cbv zeta. split; [split; reflexivity|].
  apply (retarget_recalibrates list_queue
           (set_recalibrate true (idle_player (of_Z 1) tenth false)));
    reflexivity.
Defined.

Lemma retarget_frame_witness :
  exists pl',
    retarget (idle_player (of_Z 1) tenth false) = Some pl'
    /\ recalibrate pl' = false /\ pitch pl' = tenth.
Proof.
  eexists. split; [reflexivity|].
  pose proof (retarget_frame list_queue (idle_player (of_Z 1) tenth false)
                             _ eq_refl) as H.
  split; [exact (proj1 H)|exact (proj1 (proj2 (proj2 H)))].
Defined.

Lemma retarget_twice_witness :
  exists pl1 pl2,
    retarget (idle_player (of_Z 1) tenth false) = Some pl1
    /\ retarget pl1 = Some pl2
    /\ position pl2 = position pl1 /\ offset pl2 = offset pl1.
Proof.
  eexists.
  destruct (retarget_twice list_queue (idle_player (of_Z 1) tenth false)
                           _ eq_refl) as (pl2 & H2 & Hp & Ho).
  exists pl2. split; [reflexivity|]. split; [exact H2|].
  split; [exact Hp|exact Ho].
Defined.

Lemma recue_zeroes_elapsed_witness :
  let pl := idle_player (of_Z 1) tenth false in
  finite (position pl) = true
  /\ player_get_elapsed (player_recue pl) = zero.
Proof.
  cbv zeta. split; [reflexivity|].
  apply (recue_zeroes_elapsed list_queue (idle_player (of_Z 1) tenth false)).
  reflexivity.
Defined.

End PlayerMore.

(** ** Bounds on the results of the binary64 operations *)

Module DoubleBounds.

Import DoubleFacts.

Lemma digits_log2 p : Zpos (digits2_pos p) = Z.log2 (Zpos p) + 1.
Proof.
  rewrite digits2_pos_size.
  destruct p as [q|q|]; cbn [Z.log2 Pos.size]; lia.
Qed.

Lemma Zdigits2_nonneg z : 0 <= Zdigits2 z.
Proof. destruct z; cbn; lia. Qed.

Lemma Zdigits2_mono a b : 0 <= a <= b -> Zdigits2 a <= Zdigits2 b.
Proof.
  intros [Ha Hab]. destruct a as [|p|p]; [apply Zdigits2_nonneg| |lia].
  destruct b as [|q|q]; try lia.
  cbn [Zdigits2]. rewrite !digits_log2.
  pose proof (Z.log2_le_mono (Zpos p) (Zpos q) Hab). lia.
Qed.

Lemma Zdigits2_succ a : 0 <= a -> Zdigits2 (a + 1) <= Zdigits2 a + 1.
Proof.
  intros Ha. destruct a as [|p|p]; [cbn; lia| |lia].
  replace (Zpos p + 1) with (Zpos (p + 1)) by lia.
  cbn [Zdigits2]. rewrite !digits_log2.
  pose proof (Z.log2_succ_le (Zpos p)).
  replace (Z.succ (Zpos p)) with (Zpos (p + 1)) in H by lia. lia.
Qed.

Lemma digits_mul p q :
  Zpos (digits2_pos (p * q)) <= Zpos (digits2_pos p) + Zpos (digits2_pos q).
Proof.
  rewrite !digits_log2.
  pose proof (Z.log2_mul_above (Zpos p) (Zpos q) ltac:(lia) ltac:(lia)).
  rewrite Pos2Z.inj_mul. lia.
Qed.

Lemma Zdigits2_sum a b :
  0 <= a -> 0 <= b ->
  Zdigits2 (a + b) <= Z.max (Zdigits2 a) (Zdigits2 b) + 1.
Proof.
  intros Ha Hb.
  assert (Hm : a + b <= 2 * Z.max a b) by lia.
  pose proof (Zdigits2_mono (a + b) (2 * Z.max a b) ltac:(lia)) as H.
  assert (Hd : Zdigits2 (2 * Z.max a b) <= Zdigits2 (Z.max a b) + 1).
  { destruct (Z.max a b) as [|p|p] eqn:E; [cbn; lia| |lia].
    change (2 * Zpos p) with (Zpos p~0). cbn [Zdigits2 digits2_pos]. lia. }
  assert (Zdigits2 (Z.max a b) <= Z.max (Zdigits2 a) (Zdigits2 b)).
  { destruct (Z.max_spec a b) as [[_ ->]|[_ ->]]; lia. }
  lia.
Qed.

(** Shifting right by one loses one digit. *)
Lemma shr_1_digits r :
  0 <= shr_m r ->
  0 <= shr_m (shr_1 r)
  /\ Zdigits2 (shr_m (shr_1 r)) <= Z.max (Zdigits2 (shr_m r) - 1) 0.
Proof.
  destruct r as [m rb sb]. cbn [shr_m]. intros Hm.
  destruct m as [|[p|p|]|p]; cbn [shr_1 shr_m Zdigits2 digits2_pos]; lia.
Qed.

Lemma iter_shr_1_digits n : forall r,
  0 <= shr_m r ->
  0 <= shr_m (iter_pos shr_1 n r)
  /\ Zdigits2 (shr_m (iter_pos shr_1 n r))
     <= Z.max (Zdigits2 (shr_m r) - Zpos n) 0.
Proof.
  induction n as [n IH|n IH|]; intros r Hr; cbn [iter_pos].
  - destruct (shr_1_digits r Hr) as [H0 D0].
    destruct (IH (shr_1 r) H0) as [H1 D1].
    destruct (IH _ H1) as [H2 D2]. split; [exact H2|]. lia.
  - destruct (IH r Hr) as [H1 D1].
    destruct (IH _ H1) as [H2 D2]. split; [exact H2|]. lia.
  - apply shr_1_digits. exact Hr.
Qed.

Lemma shr_record_of_loc_m m l : shr_m (shr_record_of_loc m l) = m.
Proof. destruct l as [|[| |]]; reflexivity. Qed.

Lemma shr_fexp_bound m e l :
  0 <= m ->
  0 <= shr_m (fst (shr_fexp prec emax m e l))
  /\ Zdigits2 (shr_m (fst (shr_fexp prec emax m e l)))
     + snd (shr_fexp prec emax m e l)
     <= Z.max (Zdigits2 m + e) (emin prec emax).
Proof.
  intros Hm. unfold shr_fexp, shr.
  pose proof (shr_record_of_loc_m m l) as Hrec.
  destruct (fexp prec emax (Zdigits2 m + e) - e) as [|n|n] eqn:En;
    cbn [fst snd]; rewrite ?Hrec; try (split; [exact Hm|lia]).
  destruct (iter_shr_1_digits n (shr_record_of_loc m l)) as [H0 D0];
    [rewrite Hrec; exact Hm|].
  rewrite Hrec in D0. split; [exact H0|].
  unfold fexp in En. unfold emin, prec, emax in *. lia.
Qed.

Lemma round_nearest_even_bound m l :
  0 <= m ->
  0 <= round_nearest_even m l
  /\ Zdigits2 (round_nearest_even m l) <= Zdigits2 m + 1.
Proof.
  intros Hm. pose proof (Zdigits2_succ m Hm).
  destruct l as [|[| |]]; cbn [round_nearest_even];
    try destruct (Z.even m); split; lia.
Qed.

(** Rounding a mantissa of magnitude at most [2^K], [K <= 971], gives a
    zero or a finite number of magnitude at most [2^(K+1)]: no
    infinity and no NaN. *)
Lemma binary_round_aux_moderate s p e l K :
  Zpos (digits2_pos p) + e <= K -> emin prec emax <= K -> K <= 971 ->
  moderate (K + 1) (binary_round_aux prec emax s (Zpos p) e l).
Proof.
  intros Hd Hlo Hhi. unfold binary_round_aux.
  pose proof (shr_fexp_bound (Zpos p) e l ltac:(lia)) as [H1 D1].
  destruct (shr_fexp prec emax (Zpos p) e l) as [r1 e1]. cbn [fst snd] in *.
  pose proof (round_nearest_even_bound (shr_m r1) (loc_of_shr_record r1) H1)
    as [H2 D2].
  set (m1 := round_nearest_even (shr_m r1) (loc_of_shr_record r1)) in *.
  pose proof (shr_fexp_bound m1 e1 loc_Exact H2) as [H3 D3].
  destruct (shr_fexp prec emax m1 e1 loc_Exact) as [r2 e2].
  cbn [fst snd] in *. cbn [Zdigits2] in Hd, D1.
  destruct (shr_m r2) as [|m2|m2] eqn:E2; [exact I| |lia].
  cbn [Zdigits2] in D3.
  assert (Hb : Zpos (digits2_pos m2) + e2 <= K + 1)
    by (unfold emin, prec, emax in *; lia).
  assert (He : (e2 <=? emax - prec) = true).
  { apply Z.leb_le. unfold emax, prec.
    assert (1 <= Zpos (digits2_pos m2)) by lia. lia. }
  rewrite He. exact Hb.
Qed.

Lemma shl_align_digits p e e' :
  e' <= e ->
  Zpos (digits2_pos (fst (shl_align p e e'))) + e'
  = Zpos (digits2_pos p) + e
  /\ snd (shl_align p e e') = e'.
Proof.
  intros He. unfold shl_align.
  destruct (e' - e) as [|d|d] eqn:Ed; cbn [fst snd]; try lia.
  rewrite digits2_pos_iter_xO. lia.
Qed.

Lemma shl_align_any p e e' :
  Zpos (digits2_pos (fst (shl_align p e e'))) + snd (shl_align p e e')
  = Zpos (digits2_pos p) + e.
Proof.
  unfold shl_align.
  destruct (e' - e) as [|d|d] eqn:Ed; cbn [fst snd]; try lia.
  rewrite digits2_pos_iter_xO. lia.
Qed.

Lemma binary_round_moderate s p e K :
  Zpos (digits2_pos p) + e <= K -> emin prec emax <= K -> K <= 971 ->
  moderate (K + 1) (binary_round prec emax s p e).
Proof.
  intros Hd Hlo Hhi. unfold binary_round.
  pose proof (shl_align_any p e (fexp prec emax (Zpos (digits2_pos p) + e)))
    as Ha.
  destruct (shl_align p e (fexp prec emax (Zpos (digits2_pos p) + e)))
    as [mz ez].
  cbn [fst snd] in Ha.
  apply binary_round_aux_moderate; lia.
Qed.

Lemma binary_normalize_moderate M e K :
  Zdigits2 M + e <= K -> emin prec emax <= K -> K <= 971 ->
  moderate (K + 1) (binary_normalize prec emax M e false).
Proof.
  intros Hd Hlo Hhi.
  destruct M as [|p|p]; cbn [binary_normalize]; [exact I| |];
    apply binary_round_moderate; assumption.
Qed.

Lemma moderate_weaken K K' d : K <= K' -> moderate K d -> moderate K' d.
Proof. destruct d; cbn; try tauto. lia. Qed.

(** The product of two moderate numbers is moderate. *)
Lemma mul_moderate K1 K2 x y :
  moderate K1 x -> moderate K2 y ->
  emin prec emax <= K1 + K2 -> K1 + K2 <= 971 ->
  moderate (K1 + K2 + 1) (mul x y).
Proof.
  intros Hx Hy Hlo Hhi.
  destruct x as [sx|sx| |sx mx ex], y as [sy|sy| |sy my ey];
    cbn [moderate] in Hx, Hy; try contradiction; try exact I.
  unfold mul, SFmul.
  apply binary_round_aux_moderate; try assumption.
  pose proof (digits_mul mx my). lia.
Qed.

Lemma cond_Zopp_abs s z : Z.abs (cond_Zopp s z) = Z.abs z.
Proof. destruct s; cbn; lia. Qed.

Lemma Zdigits2_abs z : Zdigits2 (Z.abs z) = Zdigits2 z.
Proof. destruct z; reflexivity. Qed.

(** The difference of two moderate numbers is moderate. *)
Lemma sub_moderate K x y :
  moderate K x -> moderate K y ->
  emin prec emax <= K -> K + 1 <= 971 ->
  moderate (K + 2) (sub x y).
Proof.
  intros Hx Hy Hlo Hhi.
  destruct x as [sx|sx| |sx mx ex], y as [sy|sy| |sy my ey];
    cbn [moderate] in Hx, Hy; try contradiction.
  - destruct sx, sy; exact I.
  - unfold sub, SFsub. cbn [moderate]. lia.
  - unfold sub, SFsub. cbn [moderate]. lia.
  - unfold sub, SFsub.
    set (ez := Z.min ex ey).
    destruct (shl_align_digits mx ex ez ltac:(lia)) as [Dx _].
    destruct (shl_align_digits my ey ez ltac:(lia)) as [Dy _].
    set (ax := fst (shl_align mx ex ez)) in *.
    set (ay := fst (shl_align my ey ez)) in *.
    replace (K + 2) with (K + 1 + 1) by lia.
    apply binary_normalize_moderate; try lia.
    rewrite <- Zdigits2_abs.
    pose proof (Zdigits2_mono
                  (Z.abs (cond_Zopp sx (Zpos ax) - cond_Zopp sy (Zpos ay)))
                  (Zpos ax + Zpos ay)) as Hmono.
    assert (Hle : Z.abs (cond_Zopp sx (Zpos ax) - cond_Zopp sy (Zpos ay))
                  <= Zpos ax + Zpos ay)
      by (destruct sx, sy; cbn [cond_Zopp]; lia).
    specialize (Hmono ltac:(lia)).
    pose proof (Zdigits2_sum (Zpos ax) (Zpos ay) ltac:(lia) ltac:(lia))
      as Hsum.
    cbn [Zdigits2] in Hsum. lia.
Qed.

(** The conversion of an [int] is moderate. *)
Lemma of_Z_moderate z :
  Z.abs z < 2 ^ 32 -> moderate 33 (of_Z z).
Proof.
  intros Hz. unfold of_Z.
  replace 33 with (32 + 1) by lia.
  apply binary_normalize_moderate; try (unfold emin, prec, emax; lia).
  rewrite <- Zdigits2_abs.
  destruct (Z.abs z) as [|p|p] eqn:E; [cbn; lia| |lia].
  cbn [Zdigits2]. rewrite digits_log2.
  assert (Z.log2 (Zpos p) < 32) by (apply Z.log2_lt_pow2; lia). lia.
Qed.

End DoubleBounds.

(** ** Silence outside the track *)

Module PlayerSilence.

Import Player Fixtures DoubleFacts DoubleBounds PlayerFacts PlayerMore.

Lemma mul_zero_r K x :
  moderate K x -> exists s, mul x (S754_zero false) = S754_zero s.
Proof.
  destruct x as [sx|sx| |sx mx ex]; cbn [moderate]; try contradiction;
    intros _; cbn; eauto.
Qed.

Lemma cubic_products_vanish mu :
  moderate 300 mu ->
  exists s,
    add (add (mul (mul mu (mul mu mu)) (S754_zero false))
             (mul (mul mu mu) (S754_zero false)))
        (mul mu (S754_zero false))
    = S754_zero s.
Proof.
  intros Hmu.
  assert (H2 : moderate 601 (mul mu mu)).
  { replace 601 with (300 + 300 + 1) by lia.
    apply mul_moderate; try assumption; unfold emin, prec, emax; lia. }
  assert (H3 : moderate 902 (mul mu (mul mu mu))).
  { replace 902 with (300 + 601 + 1) by lia.
    apply mul_moderate; try assumption; unfold emin, prec, emax; lia. }
  destruct (mul_zero_r _ _ H3) as [s3 E3].
  destruct (mul_zero_r _ _ H2) as [s2 E2].
  destruct (mul_zero_r _ _ Hmu) as [s1 E1].
  rewrite E3, E2, E1.
  destruct (add_zero_zero s3 s2) as [s32 E32]. rewrite E32.
  destruct (add_zero_zero s32 s1) as [s321 E321]. rewrite E321.
  exists s321. reflexivity.
Qed.

Lemma cubic_interpolate_silent mu :
  moderate 300 mu -> cubic_interpolate (0, 0, 0, 0) mu = S754_zero false.
Proof.
  intros Hmu. unfold cubic_interpolate.
  change (0 - 0 - 0 + 0) with 0. change (0 - 0 - 0) with 0.
  change (0 - 0) with 0. change (of_Z 0) with (S754_zero false).
  destruct (cubic_products_vanish mu Hmu) as [s E]. rewrite E.
  apply (add_zero_of_Z s 0). lia.
Qed.

(** Interpolating a constant signal returns the constant, at every
    fraction that is a zero or a finite number below [2^300] in
    magnitude: the three products vanish without rounding. *)
Theorem cubic_interpolate_constant y mu :
  is_short y -> moderate 300 mu ->
  cubic_interpolate (y, y, y, y) mu = of_Z y.
Proof.
  unfold is_short, SHRT_MIN, SHRT_MAX. intros Hy Hmu.
  unfold cubic_interpolate.
  replace (y - y - y + y) with 0 by lia.
  replace (y - y - 0) with 0 by lia.
  replace (y - y) with 0 by lia.
  change (of_Z 0) with (S754_zero false).
  destruct (cubic_products_vanish mu Hmu) as [s E]. rewrite E.
  apply add_zero_of_Z. lia.
Qed.

Lemma silent_table :
  forallb (fun n => silent_draw (Z.of_nat n)) (seq 0 4096) = true.
Proof. vm_compute. reflexivity. Qed.

Lemma clamp_silent cast s v :
  0 <= v < 4096 ->
  clamp cast (add (mul half (S754_zero s)) (noise_of v)) = 0.
Proof.
  intros Hv. pose proof silent_table as H.
  rewrite forallb_forall in H.
  specialize (H (Z.to_nat v)). rewrite Z2Nat.id in H by lia.
  specialize (H ltac:(apply in_seq; lia)).
  unfold silent_draw in H. rewrite forallb_forall in H.
  specialize (H s ltac:(destruct s; cbn; tauto)). cbv zeta in H.
  apply andb_prop in H. destruct H as [H Ht].
  apply andb_prop in H. destruct H as [Hgt Hlt].
  apply negb_true_iff in Hgt. apply negb_true_iff in Hlt.
  unfold clamp. rewrite Hgt, Hlt. unfold cast_short.
  destruct (trunc (add (mul half (S754_zero s)) (noise_of v)))
    as [[| |]|]; try discriminate.
  reflexivity.
Qed.

Lemma int_wrap_range z : INT_MIN <= int_wrap z <= INT_MAX.
Proof.
  unfold int_wrap, INT_MIN, INT_MAX.
  pose proof (Z.mod_pos_bound (z + 2 ^ 31) (2 ^ 32) ltac:(lia)). lia.
Qed.

Lemma nth_store_same pcm : forall n v d,
  (n < List.length pcm)%nat -> nth n (store pcm n v) d = v.
Proof.
  induction pcm as [|w rest IH]; intros [|n] v d Hn; cbn in *;
    try lia; try reflexivity.
  apply IH. lia.
Qed.

Section Silence.

Variable cast_undefined : double -> Z.
Variable queue : Type.
Variable InterpolateQueue :
  queue -> double -> queue * double * option double.
Variable PLAYER_CHANNELS : nat.
Variable counter_wrap : Z -> Z.

Local Abbreviation player := (player queue).
Local Abbreviation advance := (advance InterpolateQueue counter_wrap).
Local Abbreviation render_sample :=
  (render_sample cast_undefined InterpolateQueue PLAYER_CHANNELS
                 counter_wrap).
Local Abbreviation build_pcm_from :=
  (build_pcm_from cast_undefined InterpolateQueue PLAYER_CHANNELS
                  counter_wrap).
Local Abbreviation build_pcm :=
  (build_pcm cast_undefined InterpolateQueue PLAYER_CHANNELS
             counter_wrap).
Local Abbreviation positions_visited :=
  (positions_visited InterpolateQueue counter_wrap).
Local Abbreviation outside := (outside cast_undefined).

Lemma cast_int_range d : INT_MIN <= cast_int cast_undefined d <= INT_MAX.
Proof.
  unfold cast_int.
  destruct (trunc d) as [z|]; [|apply int_wrap_range].
  destruct ((INT_MIN <=? z) && (z <=? INT_MAX)) eqn:E;
    [|apply int_wrap_range].
  apply andb_prop in E. destruct E as [E1 E2].
  apply Z.leb_le in E1. apply Z.leb_le in E2. lia.
Qed.

(** The fraction of a moderate position is moderate. *)
Lemma locate_moderate p :
  moderate 200 p ->
  moderate 300 (snd (locate cast_undefined (mul p (of_Z 48000)))).
Proof.
  intros Hp.
  assert (Hs : moderate 234 (mul p (of_Z 48000))).
  { replace 234 with (200 + 33 + 1) by lia.
    apply mul_moderate; [exact Hp|apply of_Z_moderate; cbn; lia| |];
      unfold emin, prec, emax; lia. }
  unfold locate. cbn [snd].
  set (sa := if ltb (mul p (of_Z 48000)) zero
             then int_wrap (cast_int cast_undefined (mul p (of_Z 48000)) - 1)
             else cast_int cast_undefined (mul p (of_Z 48000))).
  assert (Hsa : INT_MIN <= sa <= INT_MAX).
  { subst sa. destruct (ltb (mul p (of_Z 48000)) zero);
      [apply int_wrap_range|apply cast_int_range]. }
  apply (moderate_weaken 236); [lia|].
  replace 236 with (234 + 2) by lia.
  apply sub_moderate; try (unfold emin, prec, emax; lia); [exact Hs|].
  apply (moderate_weaken 33); [lia|].
  apply of_Z_moderate. unfold INT_MIN, INT_MAX in Hsa. lia.
Qed.

(** One channel of a sample whose window is silent stores 0. *)
Lemma render_channel_silent t sa f s pcm x c :
  window t sa c = (0, 0, 0, 0) -> moderate 300 f ->
  render_channel cast_undefined t sa f s (pcm, x) c
  = (store pcm (2 * s + c) 0, lfsr_step x).
Proof.
  intros Hw Hf. unfold render_channel.
  destruct (dither x) as [x' noise] eqn:E.
  assert (Hx : x' = lfsr_step x) by (unfold lfsr_step; rewrite E; reflexivity).
  assert (Hn : noise = noise_of (drawn_bits x')).
  { change noise with (snd (x', noise)). rewrite <- E. subst x'.
    reflexivity. }
  rewrite Hw.
  rewrite (cubic_interpolate_silent f Hf).
  rewrite Hn, clamp_silent, Hx; [reflexivity|].
  apply drawn_bits_range. subst x'. apply lfsr_step_nonneg.
Qed.

Lemma zeroed_refl channels lo pcm : zeroed channels lo lo pcm pcm.
Proof. repeat split; [auto|]. intros; lia. Qed.

Lemma zeroed_trans channels lo mid hi a b c :
  zeroed channels lo mid a b -> zeroed channels mid hi b c ->
  zeroed channels lo hi a c.
Proof.
  intros (L1 & K1 & Z1) (L2 & K2 & Z2). repeat split.
  - congruence.
  - intros i d. destruct (K2 i d) as [E|E]; [rewrite E; apply K1|right; exact E].
  - intros s ch d Hs Hc Hl.
    destruct (Nat.lt_ge_cases s mid) as [Hlt|Hge].
    + destruct (K2 (2 * s + ch)%nat d) as [E|E]; [|exact E].
      rewrite E. apply Z1; [lia|exact Hc|exact Hl].
    + apply Z2; [lia|exact Hc|rewrite L1; exact Hl].
Qed.

Lemma render_channels_silent t sa f s n : forall c pcm x,
  (forall c', window t sa c' = (0, 0, 0, 0)) -> moderate 300 f ->
  let pcm' := fst (fold_left (render_channel cast_undefined t sa f s)
                             (seq c n) (pcm, x)) in
  List.length pcm' = List.length pcm
  /\ (forall i d, nth i pcm' d = nth i pcm d \/ nth i pcm' d = 0)
  /\ (forall c' d, (c <= c' < c + n)%nat ->
                   (2 * s + c' < List.length pcm)%nat ->
                   nth (2 * s + c') pcm' d = 0).
Proof.
  induction n as [|n IH]; intros c pcm x Hw Hf; cbv zeta.
  - cbn [seq fold_left fst]. repeat split; [auto|]. intros; lia.
  - cbn [seq fold_left]. rewrite render_channel_silent by auto.
    destruct (IH (S c) (store pcm (2 * s + c) 0) (lfsr_step x) Hw Hf)
      as (L & K & Z0).
    rewrite length_store in L, Z0.
    assert (Hstore : forall i d,
               nth i (store pcm (2 * s + c) 0) d = nth i pcm d
               \/ nth i (store pcm (2 * s + c) 0) d = 0).
    { intros i d. destruct (Nat.eq_dec (2 * s + c) i) as [<-|Hne].
      - destruct (Nat.lt_ge_cases (2 * s + c) (List.length pcm)) as [Hl|Hl].
        + right. apply nth_store_same. exact Hl.
        + left. rewrite !nth_overflow; [reflexivity|lia|].
          rewrite length_store. lia.
      - left. apply nth_store_other. exact Hne. }
    repeat split.
    + exact L.
    + intros i d. destruct (K i d) as [E|E]; [rewrite E; apply Hstore|].
      right. exact E.
    + intros c' d Hc Hl.
      destruct (Nat.eq_dec c' c) as [->|Hne].
      * destruct (K (2 * s + c)%nat d) as [E|E]; [|exact E].
        rewrite E. apply nth_store_same. exact Hl.
      * apply Z0; [lia|exact Hl].
Qed.

Lemma render_sample_silent s (pl : player) out :
  moderate 200 (position (advance pl)) ->
  outside (pl_track (advance pl)) (position (advance pl)) ->
  zeroed PLAYER_CHANNELS s (S s) (fst out)
         (fst (snd (render_sample s (pl, out)))).
Proof.
  intros Hm Ho. unfold Player.render_sample, sample_coordinate.
  pose proof (locate_moderate _ Hm) as Hf.
  unfold Player.outside in Ho.
  destruct (locate cast_undefined
                   (mul (position (advance pl)) (of_Z 48000))) as [sa f].
  cbn [fst snd] in *. destruct out as [pcm x].
  destruct (render_channels_silent (pl_track (advance pl)) sa f s
              PLAYER_CHANNELS 0 pcm x Ho Hf) as (L & K & Z0).
  cbn [fst]. repeat split.
  - exact L.
  - exact K.
  - intros s' c d Hs Hc Hl. assert (s' = s) by lia. subst s'.
    apply Z0; [lia|exact Hl].
Qed.

Lemma build_pcm_from_silent_track n : forall s (pl : player) out,
  Forall (fun p => moderate 200 p /\ outside (pl_track pl) p)
         (positions_visited n pl) ->
  zeroed PLAYER_CHANNELS s (s + n) (fst out)
         (fst (snd (build_pcm_from s n (pl, out)))).
Proof.
  induction n as [|n IH]; intros s pl out Hv.
  - rewrite Nat.add_0_r. apply zeroed_refl.
  - cbn [Player.positions_visited] in Hv. inversion Hv as [|p ps [Hm Ho] Hrest];
      subst.
    cbn [Player.build_pcm_from].
    destruct (advance_frame queue InterpolateQueue counter_wrap pl)
      as (Ht & _).
    pose proof (render_sample_silent s pl out Hm) as H1.
    rewrite Ht in H1. specialize (H1 Ho).
    pose proof (render_sample_player cast_undefined queue InterpolateQueue
                  PLAYER_CHANNELS counter_wrap s pl out) as Hp.
    destruct (render_sample s (pl, out)) as [pl1 out1].
    cbn [fst snd] in *. subst pl1.
    rewrite <- Ht in Hrest.
    pose proof (IH (S s) (advance pl) out1 Hrest) as H2.
    replace (s + S n)%nat with (S s + n)%nat by lia.
    eapply zeroed_trans; [exact H1|exact H2].
Qed.

Lemma empty_track_outside t p : length t <= 0 -> outside t p.
Proof.
  intros Hl c. unfold window, tap.
  assert (H : forall sa, (sa <? 0) || (length t <=? sa) = true).
  { intros sa. destruct (Z.ltb_spec sa 0); [reflexivity|].
    apply Z.leb_le. lia. }
  rewrite !H. reflexivity.
Qed.

(** Past the end of the track there is silence: when the window of
    every position a block is rendered from lies outside the track (it
    always does for an empty track) and these positions are below
    [2^200] seconds in magnitude, [build_pcm] writes 0 into every slot
    of the block, for every state of the dither. *)
Theorem silence_outside_track (pl : player) out samples :
  Forall (fun p => moderate 200 p
                   /\ (0 < length (pl_track pl) -> outside (pl_track pl) p))
         (positions_visited samples pl) ->
  let pcm' := fst (snd (build_pcm pl out samples)) in
  List.length pcm' = List.length (fst out)
  /\ (forall s c d, (s < samples)%nat -> (c < PLAYER_CHANNELS)%nat ->
                    (2 * s + c < List.length (fst out))%nat ->
                    nth (2 * s + c) pcm' d = 0).
Proof.
  intros Hv. cbv zeta. unfold Player.build_pcm.
  destruct (build_pcm_from_silent_track samples 0 pl out) as (L & _ & Z0).
  - eapply Forall_impl; [|exact Hv]. cbv beta. intros p [Hm Ho].
    split; [exact Hm|].
    destruct (Z.lt_ge_cases 0 (length (pl_track pl))) as [Hpos|Hle];
      [apply Ho; exact Hpos|apply empty_track_outside; exact Hle].
  - split; [exact L|]. intros s c d Hs Hc Hl. apply Z0; [lia|exact Hc|exact Hl].
Qed.

Lemma positions_at_rest N : forall (pl : player) s,
  pitch pl = S754_zero s ->
  position pl <> S754_zero true ->
  queue_silent InterpolateQueue N (scqueue pl) (timestamp pl) ->
  positions_visited N pl = repeat (position pl) N.
Proof.
  induction N as [|N IH]; intros pl s Hp Hpos Hq; [reflexivity|].
  cbn [Player.positions_visited repeat].
  cbn [Player.queue_silent] in Hq.
  destruct (InterpolateQueue (scqueue pl) (timestamp pl))
    as [[q ts] entry] eqn:E.
  destruct Hq as [-> Hq].
  destruct (advance_silent queue InterpolateQueue counter_wrap pl q ts E)
    as (Hposn & Hpitch & Hqueue & Hts).
  assert (Hsame : position (advance pl) = position pl).
  { rewrite Hposn, Hp. apply add_zero_keeps. exact Hpos. }
  rewrite <- Hqueue, <- Hts in Hq.
  rewrite (IH (advance pl) s); [rewrite Hsame; reflexivity| | |exact Hq].
  - rewrite Hpitch. exact Hp.
  - rewrite Hsame. exact Hpos.
Qed.

Lemma beyond_end_outside t p k :
  trunc (mul p (of_Z 48000)) = Some k ->
  ltb (mul p (of_Z 48000)) zero = false ->
  length t + 1 <= k <= INT_MAX - 2 -> 0 <= length t ->
  outside t p.
Proof.
  intros Hk Hs Hr Hl c. unfold INT_MAX in Hr.
  unfold locate, cast_int. rewrite Hk, Hs. cbn [fst].
  replace ((INT_MIN <=? k) && (k <=? INT_MAX)) with true
    by (symmetry; apply andb_true_intro; unfold INT_MIN, INT_MAX;
        split; apply Z.leb_le; lia).
  rewrite int_wrap_id by (unfold INT_MIN, INT_MAX; lia).
  unfold window, tap.
  rewrite !int_wrap_id by (unfold INT_MIN, INT_MAX; lia).
  assert (H : forall sa, length t <= sa ->
                         (sa <? 0) || (length t <=? sa) = true).
  { intros sa Hsa. apply orb_true_iff. right. apply Z.leb_le. exact Hsa. }
  rewrite !H by lia. reflexivity.
Qed.

(** A deck parked beyond the end of its track renders silence: at rest
    (pitch zero, nothing queued) at a position whose coordinate has an
    integer part above the length of the track, every slot of the
    block is 0 and the position stays where it is. *)
Theorem parked_beyond_end_silent (pl : player) out samples s k :
  pitch pl = S754_zero s ->
  moderate 200 (position pl) ->
  trunc (mul (position pl) (of_Z 48000)) = Some k ->
  length (pl_track pl) + 1 <= k <= INT_MAX - 2 ->
  0 <= length (pl_track pl) ->
  queue_silent InterpolateQueue samples (scqueue pl) (timestamp pl) ->
  let pcm' := fst (snd (build_pcm pl out samples)) in
  (forall i c d, (i < samples)%nat -> (c < PLAYER_CHANNELS)%nat ->
                 (2 * i + c < List.length (fst out))%nat ->
                 nth (2 * i + c) pcm' d = 0)
  /\ position (fst (build_pcm pl out samples)) = position pl.
Proof.
  intros Hp Hm Hk Hr Hl Hq. cbv zeta.
  assert (Hnz : position pl <> S754_zero true).
  { intros E. rewrite E in Hk. cbn in Hk. injection Hk as <-. lia. }
  assert (Hsign : ltb (mul (position pl) (of_Z 48000)) zero = false).
  { destruct (mul (position pl) (of_Z 48000)) as [sz|sz| |[|] mz ez];
      try reflexivity; try discriminate.
    cbn [trunc cond_Zopp] in Hk. injection Hk as <-.
    pose proof (Z.shiftl_nonneg (Zpos mz) ez) as [_ Hn].
    specialize (Hn ltac:(lia)). lia. }
  split.
  - destruct (build_pcm_from_silent_track samples 0 pl out) as (_ & _ & Z0).
    + rewrite (positions_at_rest samples pl s Hp Hnz Hq).
      apply Forall_forall. intros p Hin. apply repeat_spec in Hin. subst p.
      split; [exact Hm|].
      apply (beyond_end_outside _ _ k); assumption.
    + intros i c d Hi Hc Hlen. unfold Player.build_pcm.
      apply Z0; [lia|exact Hc|exact Hlen].
  - destruct (build_pcm_from_silent cast_undefined queue InterpolateQueue
                PLAYER_CHANNELS counter_wrap samples 0 pl out Hq) as [E _].
    unfold Player.build_pcm. rewrite E, Hp.
    clear E Hq. induction samples as [|n IH]; [reflexivity|].
    cbn [Nat.iter nat_rect]. unfold Nat.iter in IH. rewrite IH.
    apply add_zero_keeps. exact Hnz.
Qed.

End Silence.

Lemma cubic_interpolate_constant_witness :
  (is_short 1234 /\ moderate 300 tenth)
  /\ cubic_interpolate (1234, 1234, 1234, 1234) tenth = of_Z 1234.
Proof.
  assert (H : is_short 1234 /\ moderate 300 tenth)
    by (split; [unfold is_short, SHRT_MIN, SHRT_MAX; lia
               |vm_compute; intros E; discriminate E]).
  split; [exact H|]. destruct H as [H1 H2].
  exact (cubic_interpolate_constant 1234 tenth H1 H2).
Defined.

Lemma silence_outside_track_witness :
  let pl := idle_player (of_Z 3) tenth false in
  let pcm' := fst (snd (build_pcm cast_saturating pop_queue 2 uint_wrap pl
                                  ([7; 7; 7; 7; 7], dither_seed) 2)) in
  Forall (fun p => moderate 200 p
                   /\ (0 < length (pl_track pl) ->
                       outside cast_saturating (pl_track pl) p))
         (positions_visited pop_queue uint_wrap 2 pl)
  /\ nth 0 pcm' 1 = 0 /\ nth 3 pcm' 1 = 0.
Proof.
  cbv zeta.
  assert (H : Forall (fun p => moderate 200 p
                               /\ (0 < length (pl_track
                                                 (idle_player (of_Z 3) tenth
                                                              false)) ->
                                   outside cast_saturating
                                           (pl_track
                                              (idle_player (of_Z 3) tenth
                                                           false)) p))
                     (positions_visited pop_queue uint_wrap 2
                        (idle_player (of_Z 3) tenth false))).
  { cbn [Player.positions_visited].
    apply Forall_cons; [|apply Forall_cons; [|apply Forall_nil]];
      (split; [vm_compute; intros E; discriminate E
              |intros _ c; vm_compute; reflexivity]). }
  split; [exact H|].
  destruct (silence_outside_track cast_saturating list_queue pop_queue 2
              uint_wrap (idle_player (of_Z 3) tenth false)
              ([7; 7; 7; 7; 7], dither_seed) 2 H) as [_ Z0].
  split.
  - apply (Z0 0%nat 0%nat 1); cbn; lia.
  - apply (Z0 1%nat 1%nat 1); cbn; lia.
Defined.

Lemma parked_beyond_end_silent_witness :
  let pl := parked_player in
  (pitch pl = S754_zero false /\ moderate 200 (position pl)
   /\ trunc (mul (position pl) (of_Z 48000)) = Some 144000
   /\ length (pl_track pl) + 1 <= 144000 <= INT_MAX - 2
   /\ 0 <= length (pl_track pl)
   /\ queue_silent pop_queue 3 (scqueue pl) (timestamp pl))
  /\ nth 5 (fst (snd (build_pcm cast_saturating pop_queue 2 uint_wrap pl
                                ([7; 7; 7; 7; 7; 7; 7], dither_seed) 3))) 1
     = 0.
Proof.
  cbv zeta.
  assert (H : pitch parked_player = S754_zero false
              /\ moderate 200 (position parked_player)
              /\ trunc (mul (position parked_player) (of_Z 48000))
                 = Some 144000
              /\ length (pl_track parked_player) + 1 <= 144000 <= INT_MAX - 2
              /\ 0 <= length (pl_track parked_player)
              /\ queue_silent pop_queue 3 (scqueue parked_player)
                              (timestamp parked_player)).
  { split; [reflexivity|].
    split; [vm_compute; intros E; discriminate E|].
    split; [vm_compute; reflexivity|].
    split; [unfold INT_MAX; cbn; lia|]. split; [cbn; lia|].
    simpl. repeat split. }
  split; [exact H|]. destruct H as (H1 & H2 & H3 & H4 & H5 & H6).
  destruct (parked_beyond_end_silent cast_saturating list_queue pop_queue 2
              uint_wrap parked_player ([7; 7; 7; 7; 7; 7; 7], dither_seed)
              3 false 144000 H1 H2 H3 H4 H5 H6) as [Z0 _].
  apply (Z0 2%nat 1%nat 1); cbn; lia.
Defined.

End PlayerSilence.

(** ** The native rate elsewhere in the player *)

Module PlayerRate.

Import Player Fixtures.

(** [player_get_remain] measures the track by its native rate (line
    240: the length divided by [track->rate]), while [build_pcm] steps
    through it at 48000 samples per second.  At 1.9 s into the
    two-second 44.1 kHz [ramp_track], [player_get_remain] still reports
    a tenth of a second to play, and the block rendered is silence
    already: the window starts at sample 91199 of 88200. *)
Example remain_disagrees_with_render :
  rate (pl_track late_player) = 44100
  /\ length (pl_track late_player) = 88200
  /\ player_get_remain late_player
     = S754_finite false 7205759403792800 (-56)
  /\ gtb (player_get_remain late_player) zero = true
  /\ locate cast_saturating (sample_coordinate late_player) = (91199, zero)
  /\ fst (snd (build_pcm cast_saturating pop_queue 2 uint_wrap late_player
                         (silence 4) 2)) = [0; 0; 0; 0].
Proof. repeat split; vm_compute; reflexivity. Qed.

End PlayerRate.

(** ** The clamp as a saturating conversion *)

Module PlayerClamp.

Import Player Fixtures DoubleFacts PlayerMore DoubleBounds.

Lemma normal_mantissa m e :
  bounded prec emax m e = true -> emin prec emax < e -> 2 ^ 52 <= Zpos m.
Proof.
  unfold bounded, canonical_mantissa, fexp, emin, prec, emax.
  intros H He. apply andb_prop in H. destruct H as [H _].
  apply Z.eqb_eq in H.
  assert (Hd : Zpos (digits2_pos m) = 53) by lia.
  rewrite digits_log2 in Hd.
  destruct (Z.log2_spec (Zpos m) ltac:(lia)) as [Hlo _].
  replace (Z.log2 (Zpos m)) with 52 in Hlo by lia. exact Hlo.
Qed.

Lemma shiftl_large m e k :
  2 ^ 52 <= Zpos m -> k - 52 <= e -> 0 <= k <= 52 ->
  2 ^ k <= Z.shiftl (Zpos m) e.
Proof.
  intros Hm He Hk. destruct (Z.le_gt_cases 0 e) as [H0|H0].
  - rewrite Z.shiftl_mul_pow2 by lia.
    assert (1 <= 2 ^ e) by (apply (Z.pow_le_mono_r 2 0 e); lia).
    assert (2 ^ k <= 2 ^ 52) by (apply Z.pow_le_mono_r; lia).
    nia.
  - rewrite Z.shiftl_div_pow2 by lia.
    apply Z.div_le_lower_bound; [apply Z.pow_pos_nonneg; lia|].
    rewrite <- Z.pow_add_r by lia.
    assert (2 ^ (- e + k) <= 2 ^ 52) by (apply Z.pow_le_mono_r; lia).
    lia.
Qed.

Lemma clamp_negative cast m e :
  bounded prec emax m e = true ->
  clamp cast (S754_finite true m e)
  = Z.max SHRT_MIN (Z.min SHRT_MAX (- Z.shiftl (Zpos m) e)).
Proof.
  intros Hb. pose proof (canonical_digits m e Hb) as Hm.
  unfold clamp.
  change (gtb (S754_finite true m e) (of_Z SHRT_MAX)) with false.
  cbv iota.
  destruct (ltb (S754_finite true m e) (of_Z SHRT_MIN)) eqn:Hlt.
  - assert (Hr : 32768 <= Z.shiftl (Zpos m) e).
    { revert Hlt. unfold ltb, SFltb.
      change (of_Z SHRT_MIN) with (S754_finite true 4503599627370496 (-37)).
      cbn [SFcompare].
      destruct (Z.compare_spec e (-37)) as [He|He|He].
      - subst e. rewrite compare_cont_Z.
        destruct (Z.compare_spec (Zpos m) 4503599627370496) as [Hc|Hc|Hc];
          cbn [CompOpp]; try discriminate; intros _.
        change 32768 with (2 ^ 15).
        apply shiftl_large; [change (2 ^ 52) with 4503599627370496|..]; lia.
      - discriminate.
      - intros _.
        pose proof (normal_mantissa m e Hb
                      ltac:(unfold emin, prec, emax; lia)) as Hn.
        change 32768 with (2 ^ 15). apply shiftl_large; [exact Hn|lia..]. }
    unfold SHRT_MIN, SHRT_MAX. lia.
  - unfold cast_short. cbn [trunc cond_Zopp].
    assert (Hr : 0 <= Z.shiftl (Zpos m) e <= 32768).
    { revert Hlt. unfold ltb, SFltb.
      change (of_Z SHRT_MIN) with (S754_finite true 4503599627370496 (-37)).
      cbn [SFcompare].
      destruct (Z.compare_spec e (-37)) as [He|He|He].
      - subst e. rewrite compare_cont_Z.
        destruct (Z.compare_spec (Zpos m) 4503599627370496) as [Hc|Hc|Hc];
          cbn [CompOpp]; try discriminate; intros _;
          rewrite Z.shiftl_div_pow2 by lia;
          (split; [apply Z.div_pos; lia|]);
          apply Z.div_le_upper_bound; lia.
      - intros _. pose proof (shiftl_small m e 15 Hm ltac:(lia) ltac:(lia)).
        change (2 ^ 15) with 32768 in H. lia.
      - discriminate. }
    replace ((SHRT_MIN <=? - Z.shiftl (Zpos m) e)
             && (- Z.shiftl (Zpos m) e <=? SHRT_MAX)) with true
      by (symmetry; apply andb_true_intro; unfold SHRT_MIN, SHRT_MAX;
          split; apply Z.leb_le; lia).
    unfold SHRT_MIN, SHRT_MAX. lia.
Qed.

Lemma clamp_positive cast m e :
  bounded prec emax m e = true ->
  clamp cast (S754_finite false m e)
  = Z.max SHRT_MIN (Z.min SHRT_MAX (Z.shiftl (Zpos m) e)).
Proof.
  intros Hb. pose proof (canonical_digits m e Hb) as Hm.
  unfold clamp.
  destruct (gtb (S754_finite false m e) (of_Z SHRT_MAX)) eqn:Hgt.
  - assert (Hr : 32767 <= Z.shiftl (Zpos m) e).
    { revert Hgt. unfold gtb, SFltb.
      change (of_Z SHRT_MAX) with (S754_finite false 9006924376834048 (-38)).
      cbn [SFcompare].
      destruct (Z.compare_spec (-38) e) as [He|He|He].
      - subst e. rewrite compare_cont_Z.
        destruct (Z.compare_spec 9006924376834048 (Zpos m)) as [Hc|Hc|Hc];
          try discriminate; intros _.
        rewrite Z.shiftl_div_pow2 by lia.
        apply Z.div_le_lower_bound; lia.
      - intros _.
        pose proof (normal_mantissa m e Hb
                      ltac:(unfold emin, prec, emax; lia)) as Hn.
        assert (2 ^ 15 <= Z.shiftl (Zpos m) e)
          by (apply shiftl_large; [exact Hn|lia..]).
        change (2 ^ 15) with 32768 in H. lia.
      - discriminate. }
    unfold SHRT_MIN, SHRT_MAX. lia.
  - change (ltb (S754_finite false m e) (of_Z SHRT_MIN)) with false.
    cbv iota. unfold cast_short. cbn [trunc cond_Zopp].
    assert (Hr : 0 <= Z.shiftl (Zpos m) e <= 32767).
    { revert Hgt. unfold gtb, SFltb.
      change (of_Z SHRT_MAX) with (S754_finite false 9006924376834048 (-38)).
      cbn [SFcompare].
      destruct (Z.compare_spec (-38) e) as [He|He|He].
      - subst e. rewrite compare_cont_Z.
        destruct (Z.compare_spec 9006924376834048 (Zpos m)) as [Hc|Hc|Hc];
          try discriminate; intros _;
          rewrite Z.shiftl_div_pow2 by lia;
          (split; [apply Z.div_pos; lia|]);
          apply Z.div_le_upper_bound; lia.
      - discriminate.
      - intros _. pose proof (shiftl_small m e 14 Hm ltac:(lia) ltac:(lia)).
        change (2 ^ 14) with 16384 in H. lia. }
    replace ((SHRT_MIN <=? Z.shiftl (Zpos m) e)
             && (Z.shiftl (Zpos m) e <=? SHRT_MAX)) with true
      by (symmetry; apply andb_true_intro; unfold SHRT_MIN, SHRT_MAX;
          split; apply Z.leb_le; lia).
    unfold SHRT_MIN, SHRT_MAX. lia.
Qed.

(** The two guards make the conversion saturate.  For a zero or a
    finite number with integer part [z] (rounded towards zero), the
    value stored is [z] when it fits 16 bits, [SHRT_MAX] when [z] is
    above and [SHRT_MIN] when it is below, whatever the processor does
    with an undefined conversion; plus infinity stores [SHRT_MAX] and
    minus infinity [SHRT_MIN].  A NaN passes both guards, and what is
    stored is the outcome of the undefined conversion.
    ([valid_binary] holds of every binary64 number in canonical form,
    as the arithmetic produces them.) *)
Theorem clamp_saturates cast v :
  (forall z, valid_binary prec emax v = true -> trunc v = Some z ->
             clamp cast v = Z.max SHRT_MIN (Z.min SHRT_MAX z))
  /\ clamp cast (S754_infinity false) = SHRT_MAX
  /\ clamp cast (S754_infinity true) = SHRT_MIN
  /\ clamp cast S754_nan = short_wrap (cast S754_nan).
Proof.
  split; [|repeat split].
  intros z Hv Ht.
  destruct v as [s| | |[|] m e]; try discriminate Ht.
  - injection Ht as <-. destruct s; reflexivity.
  - injection Ht as <-. cbn [cond_Zopp]. apply clamp_negative. exact Hv.
  - injection Ht as <-. cbn [cond_Zopp]. apply clamp_positive. exact Hv.
Qed.

Lemma clamp_saturates_witness :
  let loud := mul (of_Z 3) (of_Z 12345) in
  (valid_binary prec emax loud = true /\ trunc loud = Some 37035)
  /\ clamp (fun _ => 0) loud = 32767
  /\ clamp (fun _ => 0) (SFopp loud) = -32768
  /\ clamp (fun _ => 0) (mul half (of_Z 12345)) = 6172.
Proof.
  cbv zeta.
  assert (H : valid_binary prec emax (mul (of_Z 3) (of_Z 12345)) = true
              /\ trunc (mul (of_Z 3) (of_Z 12345)) = Some 37035)
    by (split; vm_compute; reflexivity).
  split; [exact H|]. destruct H as [H1 H2].
  split; [|split].
  - exact (proj1 (clamp_saturates (fun _ => 0)
                    (mul (of_Z 3) (of_Z 12345))) 37035 H1 H2).
  - apply (proj1 (clamp_saturates (fun _ => 0)
                    (SFopp (mul (of_Z 3) (of_Z 12345)))) (-37035));
      vm_compute; reflexivity.
  - apply (proj1 (clamp_saturates (fun _ => 0)
                    (mul half (of_Z 12345))) 6172);
      vm_compute; reflexivity.
Defined.

End PlayerClamp.

(** ** What a collected block holds *)

Module PlayerCollect.

Import Player Fixtures DoubleFacts PlayerFacts PlayerMore PlayerSilence.

Lemma dither_step x :
  dither x = (lfsr_step x, noise_of (drawn_bits (lfsr_step x))).
Proof. reflexivity. Qed.

Lemma iter_shift (A : Type) (f : A -> A) n : forall x,
  Nat.iter n f (f x) = Nat.iter (S n) f x.
Proof. intros x. symmetry. apply Nat.iter_succ_r. Qed.

Section Collect.

Variable cast_undefined : double -> Z.
Variable queue : Type.
Variable InterpolateQueue :
  queue -> double -> queue * double * option double.
Variable PLAYER_CHANNELS : nat.
Variable counter_wrap : Z -> Z.

Local Abbreviation player := (player queue).
Local Abbreviation advance := (advance InterpolateQueue counter_wrap).
Local Abbreviation render_sample :=
  (render_sample cast_undefined InterpolateQueue PLAYER_CHANNELS
                 counter_wrap).
Local Abbreviation build_pcm_from :=
  (build_pcm_from cast_undefined InterpolateQueue PLAYER_CHANNELS
                  counter_wrap).
Local Abbreviation build_pcm :=
  (build_pcm cast_undefined InterpolateQueue PLAYER_CHANNELS
             counter_wrap).
Local Abbreviation player_collect :=
  (player_collect cast_undefined InterpolateQueue PLAYER_CHANNELS
                  counter_wrap).
Local Abbreviation rendered_value := (rendered_value cast_undefined).

Lemma render_channel_value t sa f s pcm x c :
  render_channel cast_undefined t sa f s (pcm, x) c
  = (store pcm (2 * s + c)
           (clamp cast_undefined
                  (add (mul half (cubic_interpolate (window t sa c) f))
                       (noise_of (drawn_bits (lfsr_step x))))),
     lfsr_step x).
Proof. unfold render_channel. rewrite dither_step. reflexivity. Qed.

Lemma render_channels_values t sa f s m : forall c0 pcm x c d,
  (c0 <= c < c0 + m)%nat ->
  (2 * s + c < List.length pcm)%nat ->
  nth (2 * s + c)
      (fst (fold_left (render_channel cast_undefined t sa f s)
                      (seq c0 m) (pcm, x))) d
  = clamp cast_undefined
          (add (mul half (cubic_interpolate (window t sa c) f))
               (noise_of (drawn_bits
                            (Nat.iter (S (c - c0)) lfsr_step x)))).
Proof.
  induction m as [|m IH]; intros c0 pcm x c d Hc Hl; [lia|].
  cbn [seq fold_left]. rewrite render_channel_value.
  destruct (Nat.eq_dec c c0) as [->|Hne].
  - destruct (render_channels_written cast_undefined t sa f s m (S c0)
                (store pcm (2 * s + c0)
                   (clamp cast_undefined
                      (add (mul half
                              (cubic_interpolate (window t sa c0) f))
                           (noise_of (drawn_bits (lfsr_step x))))),
                 lfsr_step x)) as (_ & N & _).
    rewrite N by (left; lia). cbn [fst].
    rewrite nth_store_same by exact Hl.
    rewrite Nat.sub_diag. reflexivity.
  - rewrite (IH (S c0)); [|lia|rewrite length_store; exact Hl].
    rewrite iter_shift.
    replace (S (c - S c0)) with (c - c0)%nat by lia. reflexivity.
Qed.

Lemma render_sample_values s (pl : player) pcm x c d :
  (c < PLAYER_CHANNELS)%nat ->
  (2 * s + c < List.length pcm)%nat ->
  nth (2 * s + c) (fst (snd (render_sample s (pl, (pcm, x))))) d
  = rendered_value (advance pl) (Nat.iter (S c) lfsr_step x) c.
Proof.
  intros Hc Hl. unfold Player.render_sample, Player.rendered_value.
  destruct (locate cast_undefined (sample_coordinate (advance pl)))
    as [sa f].
  cbn [snd].
  rewrite (render_channels_values _ _ _ _ PLAYER_CHANNELS 0 pcm x c d)
    by (try exact Hl; lia).
  rewrite Nat.sub_0_r. reflexivity.
Qed.

Lemma build_pcm_from_player n : forall s (pl : player) out,
  fst (build_pcm_from s n (pl, out)) = Nat.iter n advance pl.
Proof.
  induction n as [|n IH]; intros s pl out; [reflexivity|].
  cbn [Player.build_pcm_from].
  pose proof (render_sample_player cast_undefined queue InterpolateQueue
                PLAYER_CHANNELS counter_wrap s pl out) as Hp.
  destruct (render_sample s (pl, out)) as [pl1 out1].
  cbn [fst] in Hp. subst pl1. rewrite IH. apply iter_shift.
Qed.

Lemma build_pcm_from_values n : forall s0 (pl : player) pcm x k c d,
  (k < n)%nat -> (c < PLAYER_CHANNELS)%nat -> (c < 2)%nat ->
  (2 * (s0 + k) + c < List.length pcm)%nat ->
  nth (2 * (s0 + k) + c)
      (fst (snd (build_pcm_from s0 n (pl, (pcm, x))))) d
  = rendered_value (Nat.iter (S k) advance pl)
                   (Nat.iter (k * PLAYER_CHANNELS + S c) lfsr_step x) c.
Proof.
  induction n as [|n IH]; intros s0 pl pcm x k c d Hk Hc H2 Hl; [lia|].
  cbn [Player.build_pcm_from].
  pose proof (render_sample_player cast_undefined queue InterpolateQueue
                PLAYER_CHANNELS counter_wrap s0 pl (pcm, x)) as Hp.
  pose proof (render_sample_written cast_undefined queue InterpolateQueue
                PLAYER_CHANNELS counter_wrap s0 pl (pcm, x))
    as (L1 & _ & _ & X1).
  destruct k as [|k].
  - pose proof (render_sample_values s0 pl pcm x c d Hc) as Hv.
    rewrite Nat.add_0_r in *. specialize (Hv Hl).
    destruct (render_sample s0 (pl, (pcm, x))) as [pl1 [pcm1 x1]].
    cbn [fst snd] in *.
    destruct (build_pcm_from_written cast_undefined queue InterpolateQueue
                PLAYER_CHANNELS counter_wrap n (S s0) pl1 (pcm1, x1))
      as (_ & N & _).
    cbn [fst] in N. rewrite N by (left; lia).
    rewrite Hv. reflexivity.
  - destruct (render_sample s0 (pl, (pcm, x))) as [pl1 [pcm1 x1]].
    cbn [fst snd] in *. subst pl1 x1.
    replace (s0 + S k)%nat with (S s0 + k)%nat by lia.
    rewrite IH; try lia.
    rewrite iter_shift, <- Nat.iter_add.
    replace (k * PLAYER_CHANNELS + S c + PLAYER_CHANNELS)%nat
      with (S k * PLAYER_CHANNELS + S c)%nat by lia.
    reflexivity.
Qed.

(** C8.  When the lock is held elsewhere, [player_collect] returns
    the player, the output buffer and the dither register as they
    were.  When the lock is free, it renders the block while holding
    the lock and releases it.  Rendered means: the player has gone
    through [n] position updates; the dither has been drawn once per
    channel of each of the [n] output samples; and slot [2 * s + c] of
    the buffer, for every output sample [s < n] and channel [c], holds
    the value interpolated from the track at the position after
    [s + 1] updates, with the dither of that draw added, clamped to 16
    bits.  (A slot of a channel [c >= 2] is written again by the next
    output sample, so the slots are stated for [c < 2].)  The buffer
    keeps its length and the slots past the block, the result is that
    of [build_pcm] on the same player, and the lock is free again. *)
Theorem collect_try_lock (pl : player) out n :
  (lock pl = true -> player_collect pl out n = (pl, out))
  /\ (lock pl = false ->
      player_collect pl out n
      = (set_lock false (fst (build_pcm (set_lock true pl) out n)),
         snd (build_pcm (set_lock true pl) out n))
      /\ player_collect pl out n = build_pcm pl out n
      /\ lock (fst (player_collect pl out n)) = false
      /\ fst (player_collect pl out n) = Nat.iter n advance pl
      /\ snd (snd (player_collect pl out n))
         = Nat.iter (n * PLAYER_CHANNELS) lfsr_step (snd out)
      /\ List.length (fst (snd (player_collect pl out n)))
         = List.length (fst out)
      /\ (forall s c d,
             (s < n)%nat -> (c < PLAYER_CHANNELS)%nat -> (c < 2)%nat ->
             (2 * s + c < List.length (fst out))%nat ->
             nth (2 * s + c) (fst (snd (player_collect pl out n))) d
             = rendered_value
                 (Nat.iter (S s) advance pl)
                 (Nat.iter (s * PLAYER_CHANNELS + S c) lfsr_step (snd out))
                 c)
      /\ (forall i d,
             (2 * n + PLAYER_CHANNELS - 2 <= i)%nat ->
             nth i (fst (snd (player_collect pl out n))) d
             = nth i (fst out) d)).
Proof.
  destruct (player_collect_cases cast_undefined queue InterpolateQueue
              PLAYER_CHANNELS counter_wrap pl out n) as [Hheld Hfree].
  split; [exact Hheld|].
  intros Hl. destruct (Hfree Hl) as (E1 & E2 & E3).
  split; [exact E1|]. split; [exact E2|]. split; [exact E3|].
  rewrite E2. unfold Player.build_pcm.
  destruct (build_pcm_from_written cast_undefined queue InterpolateQueue
              PLAYER_CHANNELS counter_wrap n 0 pl out)
    as (L & N & _ & X).
  split; [apply build_pcm_from_player|].
  split; [exact X|]. split; [exact L|]. split.
  - intros s c d Hs Hc H2 Hb. destruct out as [pcm x].
    apply (build_pcm_from_values n 0 pl pcm x s c d Hs Hc H2 Hb).
  - intros i d Hi. apply N. right. cbn [Nat.add]. exact Hi.
Qed.

End Collect.

Lemma collect_try_lock_witness :
  let held := idle_player (of_Z 1) tenth true in
  let free := idle_player (of_Z 1) tenth false in
  (lock held = true /\ lock free = false)
  /\ player_collect cast_saturating pop_queue 2 uint_wrap held
                    (silence 8) 4 = (held, silence 8)
  /\ fst (player_collect cast_saturating pop_queue 2 uint_wrap free
                         (silence 8) 4)
     = Nat.iter 4 (advance pop_queue uint_wrap) free
  /\ (forall s c d,
         (s < 4)%nat -> (c < 2)%nat -> (c < 2)%nat ->
         (2 * s + c < List.length (fst (silence 8)))%nat ->
         nth (2 * s + c)
             (fst (snd (player_collect cast_saturating pop_queue 2
                                       uint_wrap free (silence 8) 4))) d
         = rendered_value cast_saturating
             (Nat.iter (S s) (advance pop_queue uint_wrap) free)
             (Nat.iter (s * 2 + S c) lfsr_step (snd (silence 8))) c).
Proof.
  cbv zeta. split; [split; reflexivity|]. split; [|split].
  - apply (proj1 (collect_try_lock cast_saturating list_queue pop_queue 2
                    uint_wrap (idle_player (of_Z 1) tenth true)
                    (silence 8) 4)).
    reflexivity.
  - apply (proj2 (collect_try_lock cast_saturating list_queue pop_queue 2
                    uint_wrap (idle_player (of_Z 1) tenth false)
                    (silence 8) 4)).
    reflexivity.
  - apply (proj2 (collect_try_lock cast_saturating list_queue pop_queue 2
                    uint_wrap (idle_player (of_Z 1) tenth false)
                    (silence 8) 4)).
    reflexivity.
Defined.

(** A free player one second into [ramp_track], moving a tenth of a
    second per output sample: the four samples collected, two channels
    each, and the lock afterwards. *)
Example collect_renders :
  let res := player_collect cast_saturating pop_queue 2 uint_wrap
                            (idle_player (of_Z 1) tenth false)
                            (silence 8) 4 in
  fst (snd res) = [10016; 10016; 12415; 12416; 14816; 14816; 831; 832]
  /\ lock (fst res) = false.
Proof. cbv zeta. split; vm_compute; reflexivity. Qed.

End PlayerCollect.
